(** * Verification of the AMQP helper layer ([utility.go])

    The development embeds the message envelope factory
    ([CreateMessage], [GetNextMessage], [GetKickbackMessage]), the queue
    uniqueness validator ([AssertUniqueQueues]) and the topology
    bootstrapper ([TryCreateQueues], [BindQueuesToExchange]) and proves
    the properties the specification states about them. *)

From Stdlib Require Import ZArith Lia.
From stdpp Require Import gmap strings list fin_maps pretty.

Local Open Scope Z_scope.

(** ** Go's [int64] *)

Module Int64.
Definition min : Z := - 2 ^ 63.
Definition max : Z := 2 ^ 63 - 1.

(** Two's complement wrap-around of an integer into the [int64] range. *)
Definition wrap (z : Z) : Z := (z + 2 ^ 63) mod 2 ^ 64 - 2 ^ 63.

(** Go's [+] on [int64]. *)
Definition add (a b : Z) : Z := wrap (a + b).

Definition in_range (z : Z) : Prop := min <= z <= max.
End Int64.

(** ** Errors and results *)

(** Go's [error] interface: a value with an [Error() string] method. *)
Record error := { Error : string }.

(** [errors.New(msg)] *)
Definition errors_New (msg : string) : error := {| Error := msg |}.

#[global] Instance error_eq_dec : EqDecision error.
Proof. solve_decision. Defined.

(** A Go call either returns normally or panics. *)
Inductive result (A : Type) : Type :=
  | Return (a : A)
  | Panic (msg : string).
Arguments Return {A} a.
Arguments Panic {A} msg.

(** ** Header tables

    [amqp.Table] is [map[string]interface{}].  The dynamically typed
    values a table may hold are modelled by a tagged union; [VNil] is the
    nil interface value. *)

Inductive value : Type :=
  | VNil
  | VBool (b : bool)
  | VInt (z : Z)
  | VInt32 (z : Z)
  | VInt64 (z : Z)
  | VString (s : string)
  | VBytes (b : list Z).

#[global] Instance value_eq_dec : EqDecision value.
Proof. solve_decision. Defined.

(** Go maps are reference values: a field of map type holds either [nil]
    or a reference to a map object.  The store holds the map objects; a
    reference is an index into it. *)
Abbreviation Table := (gmap string value).
Abbreviation heap := (list (gmap string value)).
Abbreviation mapref := (option nat).

(** ** The store monad *)

Definition M (A : Type) : Type := heap -> result A * heap.

Definition ret {A} (a : A) : M A := fun h => (Return a, h).

Definition bind {A B} (m : M A) (k : A -> M B) : M B :=
  fun h =>
    match m h with
    | (Return a, h') => k a h'
    | (Panic msg, h') => (Panic msg, h')
    end.

Definition panic {A} (msg : string) : M A := fun h => (Panic msg, h).

Notation "x <~ m ;; k" := (bind m (fun x => k))
  (at level 100, m at next level, right associativity).
Notation "m ;;; k" := (bind m (fun _ => k))
  (at level 100, right associativity).

(** [make(map[string]interface{})] or an empty map literal: a new map
    object. *)
Definition make_map : M mapref :=
  fun h => (Return (Some (length h)), h ++ [∅]).

(** [v, ok := m[k]]: reading a nil map finds nothing. *)
Definition map_index (m : mapref) (k : string) : M (option value) :=
  fun h =>
    (Return match m with
            | None => None
            | Some l => h !! l ≫= fun t => t !! k
            end, h).

(** [m[k] = v]: writing to a nil map panics, otherwise the map object
    itself is updated. *)
Definition map_assign (m : mapref) (k : string) (v : value) : M unit :=
  fun h =>
    match m with
    | None => (Panic "assignment to entry in nil map", h)
    | Some l => (Return tt, alter (fun t => <[k := v]> t) l h)
    end.

(** [x.(int64)] on the result of indexing a table: a missing entry reads
    as the nil interface value, and every dynamic type but [int64] makes
    the assertion panic. *)
Definition assert_int64 (v : option value) : M Z :=
  match v with
  | Some (VInt64 z) => ret z
  | _ => panic "interface conversion: interface {} is not int64"
  end.

(** ** Deliveries and publishings ([streadway/amqp])

    Byte slices are lists of byte values; [time.Time] is represented by
    its instant, the zero time being [0].  The [Acknowledger] of a
    delivery is an interface the code never touches and is left out. *)

Abbreviation bytes := (list Z).

Module Delivery.
Record t := mk {
  Headers : mapref;
  ContentType : string;
  ContentEncoding : string;
  DeliveryMode : Z;
  Priority : Z;
  CorrelationId : string;
  ReplyTo : string;
  Expiration : string;
  MessageId : string;
  Timestamp : Z;
  Type_ : string;
  UserId : string;
  AppId : string;
  ConsumerTag : string;
  MessageCount : Z;
  DeliveryTag : Z;
  Redelivered : bool;
  Exchange : string;
  RoutingKey : string;
  Body : bytes
}.
End Delivery.

Module Publishing.
Record t := mk {
  Headers : mapref;
  ContentType : string;
  ContentEncoding : string;
  DeliveryMode : Z;
  Priority : Z;
  CorrelationId : string;
  ReplyTo : string;
  Expiration : string;
  MessageId : string;
  Timestamp : Z;
  Type_ : string;
  UserId : string;
  AppId : string;
  Body : bytes
}.

(** [amqp.Publishing{}] *)
Definition zero : t :=
  mk None "" "" 0 0 "" "" "" "" 0 "" "" "" [].

Definition with_Headers (p : t) (hd : mapref) : t :=
  mk hd (ContentType p) (ContentEncoding p) (DeliveryMode p) (Priority p)
     (CorrelationId p) (ReplyTo p) (Expiration p) (MessageId p)
     (Timestamp p) (Type_ p) (UserId p) (AppId p) (Body p).
End Publishing.

(** ** The message envelope factory *)

Definition RetryCountHeader : string := "retryCount".

Section Factory.
(** The body handed to the factory is an arbitrary Go value;
    [json.Marshal] either yields its encoding or an error. *)
Context {body_t : Type}.
Variable json_Marshal : body_t -> bytes + error.

Definition CreateMessage (body : body_t) : M (Publishing.t * option error) :=
  match json_Marshal body with
  | inr err => ret (Publishing.zero, Some err)
  | inl rawBody =>
      hd <~ make_map ;;
      map_assign hd RetryCountHeader (VInt64 0) ;;;
      let pub := Publishing.mk hd "" "" 0 0 "" "" "" "" 0 "" "" "" rawBody in
      ret (pub, None)
  end.

Definition GetNextMessage (msg : Delivery.t) (body : body_t)
  : M (Publishing.t * option error) :=
  match json_Marshal body with
  | inr err => ret (Publishing.zero, Some err)
  | inl rawBody =>
      let pub :=
        Publishing.mk (Delivery.Headers msg)
          (Delivery.ContentType msg) (Delivery.ContentEncoding msg)
          (Delivery.DeliveryMode msg) 0 "" "" "" "" 0
          (Delivery.Type_ msg) "" "" rawBody in
      pub <~ match Publishing.Headers pub with
             | None => hd <~ make_map ;; ret (Publishing.with_Headers pub hd)
             | Some _ => ret pub
             end ;;
      map_assign (Publishing.Headers pub) RetryCountHeader (VInt64 0) ;;;
      ret (pub, None)
  end.
End Factory.

Definition GetKickbackMessage (maxRetries : Z) (msg : Delivery.t)
  : M (Publishing.t * option error) :=
  let pub :=
    Publishing.mk (Delivery.Headers msg)
      (Delivery.ContentType msg) (Delivery.ContentEncoding msg)
      (Delivery.DeliveryMode msg) (Delivery.Priority msg)
      (Delivery.CorrelationId msg) (Delivery.ReplyTo msg)
      (Delivery.Expiration msg) (Delivery.MessageId msg)
      (Delivery.Timestamp msg) (Delivery.Type_ msg) "" ""
      (Delivery.Body msg) in
  pub <~ match Publishing.Headers pub with
         | None => hd <~ make_map ;; ret (Publishing.with_Headers pub hd)
         | Some _ => ret pub
         end ;;
  entry <~ map_index (Publishing.Headers pub) RetryCountHeader ;;
  match entry with
  | None => map_assign (Publishing.Headers pub) RetryCountHeader (VInt64 0)
  | Some _ => ret tt
  end ;;;
  cur <~ (v <~ map_index (Publishing.Headers pub) RetryCountHeader ;;
          assert_int64 v) ;;
  if cur >? maxRetries then
    ret (Publishing.zero, Some (errors_New "too many retries"))
  else
    cur <~ (v <~ map_index (Publishing.Headers pub) RetryCountHeader ;;
            assert_int64 v) ;;
    map_assign (Publishing.Headers pub) RetryCountHeader
      (VInt64 (Int64.add cur 1)) ;;;
    ret (pub, None).

(** *** Reading a delivery against the store *)

(** The header mapping a delivery carries: empty for a nil map, the map
    object it refers to otherwise (nothing for a reference that is not in
    the store, which no Go value is). *)
Definition source_headers (h : heap) (msg : Delivery.t) : option Table :=
  match Delivery.Headers msg with
  | None => Some ∅
  | Some l => h !! l
  end.

(** The retry count a header mapping records: 0 when the entry is
    absent, the stored number when it is an [int64], and nothing when the
    entry has another dynamic type. *)
Definition current_count (t : Table) : option Z :=
  match t !! RetryCountHeader with
  | None => Some 0
  | Some (VInt64 c) => Some c
  | Some _ => None
  end.

(** The map object the new envelope's headers refer to: the source's own
    map, or the next free cell when the source has a nil map. *)
Definition target (h : heap) (msg : Delivery.t) : nat :=
  match Delivery.Headers msg with
  | None => length h
  | Some l => l
  end.

(** The header mapping of an envelope, read from the store. *)
Definition headers_of (h : heap) (pub : Publishing.t) : option Table :=
  match Publishing.Headers pub with
  | None => None
  | Some l => h !! l
  end.

(** The value of the retry-count header of an envelope. *)
Definition retry_header (h : heap) (pub : Publishing.t) : option value :=
  headers_of h pub ≫= fun t => t !! RetryCountHeader.

(** The store after the header mapping the envelope refers to has been
    given the contents [t']: the source's own map object is overwritten,
    or a new map object is added when the source has a nil map. *)
Definition store_headers (h : heap) (msg : Delivery.t) (t' : Table) : heap :=
  match Delivery.Headers msg with
  | None => h ++ [t']
  | Some l => <[l := t']> h
  end.

(** What a call of [GetKickbackMessage] does to the store and what it
    returns, by cases on the retry entry of the source's headers. *)
Definition kickback_outcome (maxRetries : Z) (msg : Delivery.t) (h : heap)
    (t : Table) : result (Publishing.t * option error) * heap :=
  let write := store_headers h msg in
  match current_count t with
  | None => (Panic "interface conversion: interface {} is not int64", h)
  | Some c =>
      if c >? maxRetries then
        (Return (Publishing.zero, Some (errors_New "too many retries")),
         write (<[RetryCountHeader := VInt64 c]> t))
      else
        (Return
           (Publishing.mk (Some (target h msg))
              (Delivery.ContentType msg) (Delivery.ContentEncoding msg)
              (Delivery.DeliveryMode msg) (Delivery.Priority msg)
              (Delivery.CorrelationId msg) (Delivery.ReplyTo msg)
              (Delivery.Expiration msg) (Delivery.MessageId msg)
              (Delivery.Timestamp msg) (Delivery.Type_ msg) "" ""
              (Delivery.Body msg), None),
         write (<[RetryCountHeader := VInt64 (Int64.add c 1)]> t))
  end.

(** The delivery a consumer receives when an envelope is published and
    delivered again: the properties of the envelope, with the
    broker-assigned fields of [base]. *)
Definition redeliver (base : Delivery.t) (pub : Publishing.t) : Delivery.t :=
  Delivery.mk (Publishing.Headers pub)
    (Publishing.ContentType pub) (Publishing.ContentEncoding pub)
    (Publishing.DeliveryMode pub) (Publishing.Priority pub)
    (Publishing.CorrelationId pub) (Publishing.ReplyTo pub)
    (Publishing.Expiration pub) (Publishing.MessageId pub)
    (Publishing.Timestamp pub) (Publishing.Type_ pub)
    (Publishing.UserId pub) (Publishing.AppId pub)
    (Delivery.ConsumerTag base) (Delivery.MessageCount base)
    (Delivery.DeliveryTag base) (Delivery.Redelivered base)
    (Delivery.Exchange base) (Delivery.RoutingKey base)
    (Publishing.Body pub).

(** What one call of a kickback chain yielded. *)
Inductive kick :=
  | Kicked (count : option value)
  | Exhausted (err : error)
  | Panicked (msg : string).

(** [n] successive calls of [GetKickbackMessage], each on the redelivered
    output of the one before; the chain ends at the first call that does
    not yield an envelope.  Every successful call is listed with the
    retry-count header of the envelope it returned. *)
Fixpoint kickback_chain (maxRetries : Z) (n : nat) (msg : Delivery.t)
    (h : heap) : list kick :=
  match n with
  | O => []
  | S n' =>
      match GetKickbackMessage maxRetries msg h with
      | (Return (pub, None), h') =>
          Kicked (retry_header h' pub)
            :: kickback_chain maxRetries n' (redeliver msg pub) h'
      | (Return (_, Some err), _) => [Exhausted err]
      | (Panic m, _) => [Panicked m]
      end
  end.

(** The retry counts [from], [from + 1], ... ([n] of them). *)
Definition counts (from : Z) (n : nat) : list kick :=
  (fun c => Kicked (Some (VInt64 c))) <$> seqZ from (Z.of_nat n).

(** A pre-increment count [c] agrees with the retry entry of [t]: 0 when
    the entry is absent, the stored number when it is an [int64]. *)
Definition reads_count (t : Table) (c : Z) : Prop :=
  match t !! RetryCountHeader with
  | None => c = 0
  | Some (VInt64 z) => c = z
  | Some _ => True
  end.

(** The retry accounting of [GetKickbackMessage] as the specification
    words it, for one delivery. *)
Definition kickback_accounting (maxRetries : Z) (msg : Delivery.t)
    (h : heap) : Prop :=
  exists t c, source_headers h msg = Some t /\ reads_count t c /\
    if c >? maxRetries then
      exists err, fst (GetKickbackMessage maxRetries msg h)
                  = Return (Publishing.zero, Some err)
    else
      exists pub, fst (GetKickbackMessage maxRetries msg h)
                  = Return (pub, None) /\
        retry_header (snd (GetKickbackMessage maxRetries msg h)) pub
        = Some (VInt64 (c + 1)).

(** Sample inputs. *)
Definition sample_delivery (hd : mapref) : Delivery.t :=
  Delivery.mk hd "application/json" "gzip" 2 4 "corr" "reply" "60000" "id-1"
    1577836800 "task" "guest" "app" "ctag" 0 7 false "ex" "rk" [123; 125].

Definition sample_Marshal (body : option bytes) : bytes + error :=
  match body with
  | Some raw => inl raw
  | None => inr (errors_New "json: unsupported type")
  end.

(** ** Configuration and logging *)

(** [config.Config].  Only the queue name and the exchange name are read
    by the code under study; the queue, consumer, publisher and endpoint
    settings are carried by the real structure and never looked at. *)
Module config.
Record Exchange := mkExchange { Name : string }.
Record Config := mkConfig { QueueName : string; Exchange_ : Exchange }.
End config.

(** What the logger received, in order. *)
Inductive fmt_arg :=
  | ArgInt (z : Z)
  | ArgString (s : string).

Inductive log_entry :=
  | LogErrorf (format : string) (args : list fmt_arg)
  | LogPanic (msg : string)
  | LogDebug (fields : list (string * error)) (msg : string).

(** ** The uniqueness validator *)

(** The diagnostic lines: one per configuration, with its index. *)
Definition report (confs : list config.Config) : list log_entry :=
  imap (fun j c => LogErrorf "%d = %s"
                     [ArgInt (Z.of_nat j); ArgString (config.QueueName c)])
       confs.

(** The loop of [AssertUniqueQueues] from index [i] on: [rest] are the
    configurations still to visit, [confs] all of them, [queues] the map
    of the names seen so far. *)
Fixpoint unique_loop (confs rest : list config.Config) (i : Z)
    (queues : gmap string bool) (log : list log_entry)
    : result unit * list log_entry :=
  match rest with
  | [] => (Return tt, log)
  | c :: rest' =>
      let queues := <[config.QueueName c := false]> queues in
      if decide (Z.of_nat (size queues) - 1 <> i) then
        (Panic "queue names are not unique",
         log ++ report confs ++ [LogPanic "queue names are not unique"])
      else unique_loop confs rest' (i + 1) queues log
  end.

Definition AssertUniqueQueues (log : list log_entry)
    (confs : list config.Config) : result unit * list log_entry :=
  unique_loop confs confs 0 ∅ log.

Definition sample_conf (name exchange : string) : config.Config :=
  config.mkConfig name (config.mkExchange exchange).

(** ** The topology bootstrapper

    The [AMQPService] interface is declared elsewhere in the package; the
    code under study calls four of its methods, and two methods of the
    channel [Channel()] hands out.  A service is given by what those
    calls return. *)

Record AMQPChannel := mkChannel {
  QueueBind : string -> string -> string -> bool -> mapref -> option error;
  Close : option error
}.

Record AMQPService := mkService {
  CreateQueue : option error;
  CreateExchange : option error;
  Channel : AMQPChannel + error;
  Config : config.Config
}.

(** The calls a batch makes on its services; [i] is the index of the
    service in [queues]. *)
Inductive call :=
  | CallCreateQueue (i : nat)
  | CallCreateExchange (i : nat)
  | CallChannel (i : nat)
  | CallConfig (i : nat)
  | CallQueueBind (i : nat) (name key exchange : string) (noWait : bool)
      (args : mapref)
  | CallClose (i : nat).

#[global] Instance call_eq_dec : EqDecision call.
Proof. solve_decision. Defined.

(** A goroutine of a batch makes calls and sends one value on [errChan]. *)
Inductive instr :=
  | Do (c : call)
  | Send (e : option error).

Record goroutine := mkGoroutine { prog : list instr; pc : nat }.

Definition start (p : list instr) : goroutine := mkGoroutine p 0.
Definition advance (g : goroutine) : goroutine :=
  mkGoroutine (prog g) (S (pc g)).

(** Both batch operations have the same shape: a loop that starts
    goroutines, then a loop that receives [expect] values from the
    unbuffered channel [errChan] and logs the non-nil ones. *)
Record fanout := mkFanout {
  iterations : nat;
  spawn : nat -> list (list instr);
  expect : nat
}.

Record state := mkState {
  spawned : nat;
  goroutines : list goroutine;
  received : nat;
  log : list log_entry;
  trace : list call;
  returned : bool
}.

Definition init (log0 : list log_entry) : state :=
  mkState 0 [] 0 log0 [] false.

(** The body of the receive loop for one received value. *)
Definition log_failure (e : option error) : list log_entry :=
  match e with
  | None => []
  | Some err => [LogDebug [("err", err)] "failed to create a queue or exchange"]
  end.

(** The scheduler's choices: let the caller run one iteration of the
    first loop, let goroutine [g] run its next instruction, or let the
    caller leave the second loop and return. *)
Inductive action :=
  | Spawn
  | Run (g : nat)
  | Finish.

(** One step.  A send on the unbuffered channel needs the caller to be
    receiving: it has left the first loop and has not yet received
    [expect] values.  A step that is not enabled yields nothing. *)
Definition step (F : fanout) (a : action) (s : state) : option state :=
  match a with
  | Spawn =>
      if decide (returned s = false /\ (spawned s < iterations F)%nat) then
        Some (mkState (S (spawned s))
                (goroutines s ++ (start <$> spawn F (spawned s)))
                (received s) (log s) (trace s) (returned s))
      else None
  | Run g =>
      match goroutines s !! g with
      | None => None
      | Some gr =>
          match prog gr !! pc gr with
          | None => None
          | Some (Do c) =>
              Some (mkState (spawned s) (<[g := advance gr]> (goroutines s))
                      (received s) (log s) (trace s ++ [c]) (returned s))
          | Some (Send e) =>
              if decide (returned s = false /\ spawned s = iterations F
                         /\ (received s < expect F)%nat) then
                Some (mkState (spawned s) (<[g := advance gr]> (goroutines s))
                        (S (received s)) (log s ++ log_failure e) (trace s)
                        (returned s))
              else None
          end
      end
  | Finish =>
      if decide (returned s = false /\ spawned s = iterations F
                 /\ received s = expect F) then
        Some (mkState (spawned s) (goroutines s) (received s) (log s)
                (trace s) true)
      else None
  end.

Fixpoint exec (F : fanout) (acts : list action) (s : state) : option state :=
  match acts with
  | [] => Some s
  | a :: acts' =>
      match step F a s with
      | None => None
      | Some s' => exec F acts' s'
      end
  end.

(** [errChan <- queues[i].CreateQueue()] and
    [errChan <- queues[i].CreateExchange()] *)
Definition create_queue_task (i : nat) (q : AMQPService) : list instr :=
  [Do (CallCreateQueue i); Send (CreateQueue q)].

Definition create_exchange_task (i : nat) (q : AMQPService) : list instr :=
  [Do (CallCreateExchange i); Send (CreateExchange q)].

(** The goroutine of [BindQueuesToExchange]; the deferred [ch.Close()]
    runs when the function returns, after its send. *)
Definition bind_task (i : nat) (q : AMQPService) : list instr :=
  Do (CallChannel i) ::
  match Channel q with
  | inr err => [Send (Some err)]
  | inl ch =>
      let conf := Config q in
      Do (CallConfig i) ::
      if decide (config.Name (config.Exchange_ conf) = "") then
        [Send None; Do (CallClose i)]
      else
        [Do (CallQueueBind i (config.QueueName conf) (config.QueueName conf)
               (config.Name (config.Exchange_ conf)) false None);
         Send (QueueBind ch (config.QueueName conf) (config.QueueName conf)
                 (config.Name (config.Exchange_ conf)) false None);
         Do (CallClose i)]
  end.

Definition TryCreateQueues (queues : list AMQPService) : fanout :=
  mkFanout (length queues)
    (fun i => match queues !! i with
              | Some q => [create_queue_task i q; create_exchange_task i q]
              | None => []
              end)
    (length queues * 2).

Definition BindQueuesToExchange (queues : list AMQPService) : fanout :=
  mkFanout (length queues)
    (fun i => match queues !! i with
              | Some q => [bind_task i q]
              | None => []
              end)
    (length queues).

(** *** Reading a state *)

Definition calls_of (p : list instr) : list call :=
  omap (fun ins => match ins with Do c => Some c | Send _ => None end) p.

Definition sends_of (p : list instr) : list (option error) :=
  omap (fun ins => match ins with Do _ => None | Send e => Some e end) p.

(** The calls a goroutine has made and the values it has sent so far. *)
Definition done_calls (g : goroutine) : list call :=
  calls_of (take (pc g) (prog g)).

Definition done_sends (g : goroutine) : list (option error) :=
  sends_of (take (pc g) (prog g)).

(** A goroutine has completed when it has run all its instructions. *)
Definition completed (g : goroutine) : Prop := pc g = length (prog g).

(** The programs of the goroutines started by the first [k] iterations. *)
Definition spawned_progs (F : fanout) (k : nat) : list (list instr) :=
  concat (spawn F <$> seq 0 k).

(** The creation calls a batch of [n] services is to make. *)
Definition creation_calls (n : nat) : list call :=
  concat ((fun i => [CallCreateQueue i; CallCreateExchange i]) <$> seq 0 n).

(** The errors the services of a batch answer creation calls with. *)
Definition creation_results (queues : list AMQPService)
  : list (option error) :=
  concat ((fun q => [CreateQueue q; CreateExchange q]) <$> queues).

Definition is_bind_of (i : nat) (c : call) : bool :=
  match c with
  | CallQueueBind j _ _ _ _ _ => bool_decide (i = j)
  | _ => false
  end.

(** What the goroutine of a service reports to the caller of
    [BindQueuesToExchange]. *)
Definition bind_report (i : nat) (q : AMQPService) : list (option error) :=
  sends_of (bind_task i q).

Definition failing_channel_service : AMQPService :=
  mkService None None (inr (errors_New "channel closed")) (sample_conf "jobs" "").

Definition sample_channel : AMQPChannel :=
  mkChannel (fun _ _ _ _ _ => None) None.

Definition sample_service (name exchange : string) : AMQPService :=
  mkService (Some (errors_New "queue exists"))
    (Some (errors_New "exchange exists")) (inl sample_channel)
    (sample_conf name exchange).

(** What holds of every state a run of the batch [F] reaches from
    [init log0]: the goroutines are those of the iterations made so far,
    the trace holds the calls they have made, the caller has received and
    logged the values they have sent, and the caller has returned only
    from the end of its second loop. *)
Record inv (F : fanout) (log0 : list log_entry) (s : state) : Prop := mkInv {
  inv_spawned : (spawned s <= iterations F)%nat;
  inv_progs : prog <$> goroutines s = spawned_progs F (spawned s);
  inv_pc : Forall (fun g => (pc g <= length (prog g))%nat) (goroutines s);
  inv_trace : trace s ≡ₚ concat (done_calls <$> goroutines s);
  inv_sent : exists sent,
    sent ≡ₚ concat (done_sends <$> goroutines s)
    /\ received s = length sent
    /\ log s = log0 ++ (sent ≫= log_failure);
  inv_returned : returned s = true ->
    spawned s = iterations F /\ received s = expect F
}.

(** What the specification says of the binding of service [i] at the
    end of a run of [BindQueuesToExchange]: for the default exchange no
    bind call is made and nil is reported; for a named exchange the one
    bind call has the queue name as destination and as routing key. *)
Definition binds_as_specified (i : nat) (q : AMQPService) (s : state) : Prop :=
  let conf := Config q in
  (config.Name (config.Exchange_ conf) = "" ->
     filter (is_bind_of i) (trace s) = [] /\ bind_report i q = [None])
  /\ (config.Name (config.Exchange_ conf) <> "" ->
      filter (is_bind_of i) (trace s)
      = [CallQueueBind i (config.QueueName conf) (config.QueueName conf)
           (config.Name (config.Exchange_ conf)) false None]).

(** A batch is balanced when each of its goroutines sends exactly one
    value and the caller expects as many values as it starts goroutines. *)
Definition balanced (F : fanout) : Prop :=
  Forall (fun p => length (sends_of p) = 1%nat)
    (spawned_progs F (iterations F))
  /\ expect F = length (spawned_progs F (iterations F)).

(** The number of steps a state is away from [init]. *)
Definition steps_taken (s : state) : nat :=
  spawned s + sum_list_with pc (goroutines s)
  + (if returned s then 1 else 0).

(** The number of steps a complete run of a batch takes. *)
Definition steps_total (F : fanout) : nat :=
  iterations F + sum_list_with length (spawned_progs F (iterations F)) + 1.

(** *** More readings of a state *)

(** The service a call is made on. *)
Definition call_service (c : call) : nat :=
  match c with
  | CallCreateQueue i | CallCreateExchange i | CallChannel i | CallConfig i
  | CallQueueBind i _ _ _ _ _ | CallClose i => i
  end.

Definition is_creation (c : call) : bool :=
  match c with
  | CallCreateQueue _ | CallCreateExchange _ => true
  | _ => false
  end.

Definition is_close_of (i : nat) (c : call) : bool :=
  match c with
  | CallClose j => bool_decide (i = j)
  | _ => false
  end.

#[global] Instance completed_dec g : Decision (completed g).
Proof. unfold completed. apply _. Defined.

(** The calls a batch of bindings makes when every goroutine has run to
    its end. *)
Definition binding_calls (queues : list AMQPService) : list call :=
  concat (imap (fun i q => calls_of (bind_task i q)) queues).

(** A goroutine has run nothing past its send: no send lies strictly
    before the instruction it ran last. *)
Definition nothing_after_send (g : goroutine) : Prop :=
  sends_of (take (pred (pc g)) (prog g)) = [].

(** ** [AutoSetup]

    [TryCreateQueues] and then [BindQueuesToExchange], on one logger.
    The goroutines of the first batch are not stopped by its return, so
    a step of the first batch stays possible for as long as that batch
    enables one; the second batch starts once the first has returned.
    What a step logs and calls is appended to the log and the trace of
    the whole. *)
Record auto_state := mkAuto {
  creating : state;
  binding : option state;
  auto_log : list log_entry;
  auto_trace : list call
}.

Inductive auto_action :=
  | InCreate (a : action)
  | InBind (a : action).

Definition auto_init (log0 : list log_entry) : auto_state :=
  mkAuto (init log0) None log0 [].

(** What a step added to a log or a trace. *)
Definition emitted {A} (before after : list A) : list A :=
  drop (length before) after.

Definition auto_step (queues : list AMQPService) (a : auto_action)
    (S : auto_state) : option auto_state :=
  match a with
  | InCreate a' =>
      match step (TryCreateQueues queues) a' (creating S) with
      | None => None
      | Some s' =>
          Some (mkAuto s' (binding S)
                  (auto_log S ++ emitted (log (creating S)) (log s'))
                  (auto_trace S ++ emitted (trace (creating S)) (trace s')))
      end
  | InBind a' =>
      if returned (creating S) then
        let s2 := default (init []) (binding S) in
        match step (BindQueuesToExchange queues) a' s2 with
        | None => None
        | Some s' =>
            Some (mkAuto (creating S) (Some s')
                    (auto_log S ++ emitted (log s2) (log s'))
                    (auto_trace S ++ emitted (trace s2) (trace s')))
        end
      else None
  end.

Fixpoint auto_exec (queues : list AMQPService) (acts : list auto_action)
    (S : auto_state) : option auto_state :=
  match acts with
  | [] => Some S
  | a :: acts' =>
      match auto_step queues a S with
      | None => None
      | Some S' => auto_exec queues acts' S'
      end
  end.

(** [AutoSetup] has returned when its second batch has. *)
Definition auto_returned (S : auto_state) : bool :=
  match binding S with
  | Some s2 => returned s2
  | None => false
  end.

(** What holds of every state of a run of [AutoSetup]: each batch is in
    a state of a run of its own, the second batch has started only after
    the first returned, and the log and the trace of the whole are those
    of the first batch followed by those of the second. *)
Definition auto_ok (queues : list AMQPService) (log0 : list log_entry)
    (S : auto_state) : Prop :=
  (exists acts1,
     exec (TryCreateQueues queues) acts1 (init log0) = Some (creating S))
  /\ match binding S with
     | None => True
     | Some s2 =>
         returned (creating S) = true
         /\ exists acts2,
              exec (BindQueuesToExchange queues) acts2 (init []) = Some s2
     end
  /\ auto_trace S = trace (creating S) ++ from_option trace [] (binding S)
  /\ auto_log S = log (creating S) ++ from_option log [] (binding S).

(** ** Loading a configuration ([config.New])

    The whole of [config.Config]: the queue name, the four settings
    [utility.go] never reads, and the exchange.  The types of those four
    settings and the five constructors [New] calls are declared in other
    files of the package; they are parameters here, a constructor being
    given by what it returns for a [viper] instance.  [config.Config] as
    used by the validator and the bootstrapper is the projection
    [to_Config]. *)
Module config_full.
Section Types.
Context {queue_t consume_t publish_t endpoint_t : Type}.
Record Config := mk {
  QueueName : string;
  Queue : queue_t;
  Consume : consume_t;
  Publish : publish_t;
  Endpoint : endpoint_t;
  Exchange : config.Exchange
}.
End Types.
Arguments Config : clear implicits.
End config_full.

Inductive loader_call :=
  | CallNewQueue
  | CallNewConsume
  | CallNewPublish
  | CallNewEndpoint
  | CallNewExchange.

#[global] Instance loader_call_eq_dec : EqDecision loader_call.
Proof. solve_decision. Defined.

Definition all_loader_calls : list loader_call :=
  [CallNewQueue; CallNewConsume; CallNewPublish; CallNewEndpoint;
   CallNewExchange].

Section Loader.
Context {viper_t queue_t consume_t publish_t endpoint_t : Type}.
(** The zero values of the four settings. *)
Variables (zero_Queue : queue_t) (zero_Consume : consume_t)
  (zero_Publish : publish_t) (zero_Endpoint : endpoint_t).
Variable NewQueue : viper_t -> queue_t * option error.
Variable NewConsume : viper_t -> consume_t * option error.
Variable NewPublish : viper_t -> publish_t * option error.
Variable NewEndpoint : viper_t -> endpoint_t * option error.
Variable NewExchange : viper_t -> config.Exchange * option error.

(** [New]: the configuration and the error it returns, and the
    constructors it has called, in order.  The named result [out] starts
    as the zero value; each assignment stores what the constructor
    returned, also when it returned an error. *)
Definition New (v : viper_t)
  : (config_full.Config queue_t consume_t publish_t endpoint_t * option error)
    * list loader_call :=
  let zero_Exchange := config.mkExchange "" in
  let '(q, err) := NewQueue v in
  match err with
  | Some e =>
      (config_full.mk "" q zero_Consume zero_Publish zero_Endpoint
         zero_Exchange, Some e, [CallNewQueue])
  | None =>
  let '(c, err) := NewConsume v in
  match err with
  | Some e =>
      (config_full.mk "" q c zero_Publish zero_Endpoint zero_Exchange,
       Some e, [CallNewQueue; CallNewConsume])
  | None =>
  let '(p, err) := NewPublish v in
  match err with
  | Some e =>
      (config_full.mk "" q c p zero_Endpoint zero_Exchange, Some e,
       [CallNewQueue; CallNewConsume; CallNewPublish])
  | None =>
  let '(ep, err) := NewEndpoint v in
  match err with
  | Some e =>
      (config_full.mk "" q c p ep zero_Exchange, Some e,
       [CallNewQueue; CallNewConsume; CallNewPublish; CallNewEndpoint])
  | None =>
  let '(x, err) := NewExchange v in
  (config_full.mk "" q c p ep x, err, all_loader_calls)
  end end end end.

(** The error a constructor returns. *)
Definition loader_error (v : viper_t) (c : loader_call) : option error :=
  match c with
  | CallNewQueue => snd (NewQueue v)
  | CallNewConsume => snd (NewConsume v)
  | CallNewPublish => snd (NewPublish v)
  | CallNewEndpoint => snd (NewEndpoint v)
  | CallNewExchange => snd (NewExchange v)
  end.

(** The field a constructor fills holds what the constructor returned,
    or still holds its zero value. *)
Definition field_loaded (v : viper_t) (c : loader_call)
    (out : config_full.Config queue_t consume_t publish_t endpoint_t)
  : Prop :=
  match c with
  | CallNewQueue => config_full.Queue out = fst (NewQueue v)
  | CallNewConsume => config_full.Consume out = fst (NewConsume v)
  | CallNewPublish => config_full.Publish out = fst (NewPublish v)
  | CallNewEndpoint => config_full.Endpoint out = fst (NewEndpoint v)
  | CallNewExchange => config_full.Exchange out = fst (NewExchange v)
  end.

Definition field_zero (c : loader_call)
    (out : config_full.Config queue_t consume_t publish_t endpoint_t)
  : Prop :=
  match c with
  | CallNewQueue => config_full.Queue out = zero_Queue
  | CallNewConsume => config_full.Consume out = zero_Consume
  | CallNewPublish => config_full.Publish out = zero_Publish
  | CallNewEndpoint => config_full.Endpoint out = zero_Endpoint
  | CallNewExchange => config_full.Exchange out = config.mkExchange ""
  end.
End Loader.

(** The part of a configuration the validator and the bootstrapper read. *)
Definition to_Config {queue_t consume_t publish_t endpoint_t : Type}
    (c : config_full.Config queue_t consume_t publish_t endpoint_t)
  : config.Config :=
  config.mkConfig (config_full.QueueName c) (config_full.Exchange c).

(** A sample loader over settings that are numbers: a constructor fails
    when the setting it reads is negative. *)
Definition sample_ctor (name : string) (v : Z) : Z * option error :=
  (v, if decide (v < 0) then Some (errors_New name) else None).

Definition sample_New (v : Z)
  : (config_full.Config Z Z Z Z * option error) * list loader_call :=
  New 0 0 0 (sample_ctor "queue") (fun v => sample_ctor "consume" (v - 1))
    (fun v => sample_ctor "publish" (v - 2))
    (fun v => sample_ctor "endpoint" (v - 3))
    (fun v => (config.mkExchange "amq.topic", None)) v.

(** ** Dialling ([OpenAMQPConnection])

    [config.Endpoint], with the fields the dial string is built from. *)
Record Endpoint := mkEndpoint {
  QueueProtocol : string;
  QueueUser : string;
  QueuePassword : string;
  QueueHost : string;
  QueuePort : Z;
  QueueVHost : string
}.

(** [fmt.Sprintf("%s://%s:%s@%s:%d/%s", ...)] *)
Definition dial_url (conf : Endpoint) : string :=
  QueueProtocol conf +:+ "://" +:+ QueueUser conf +:+ ":"
    +:+ QueuePassword conf +:+ "@" +:+ QueueHost conf +:+ ":"
    +:+ pretty (QueuePort conf) +:+ "/" +:+ QueueVHost conf.

Section Dial.
(** [amqp.Dial] is the client library's; it is a parameter. *)
Context {connection_t : Type}.
Variable amqp_Dial : string -> connection_t + error.

Definition OpenAMQPConnection (conf : Endpoint) : connection_t + error :=
  amqp_Dial (dial_url conf).
End Dial.

(** * Properties *)

(** ** The int64 model *)

Lemma Int64_wrap_id z : Int64.in_range z -> Int64.wrap z = z.
Proof.
  unfold Int64.in_range, Int64.min, Int64.max, Int64.wrap. intros Hz.
  rewrite Z.mod_small; lia.
Qed.

Lemma Int64_wrap_range z : Int64.in_range (Int64.wrap z).
Proof.
  unfold Int64.in_range, Int64.min, Int64.max, Int64.wrap.
  pose proof (Z.mod_pos_bound (z + 2 ^ 63) (2 ^ 64) ltac:(lia)). lia.
Qed.

Lemma Int64_add_succ c :
  Int64.min <= c < Int64.max -> Int64.add c 1 = c + 1.
Proof.
  intros Hc. apply Int64_wrap_id. unfold Int64.in_range in *.
  unfold Int64.min, Int64.max in *. lia.
Qed.

Lemma Int64_add_max : Int64.add Int64.max 1 = Int64.min.
Proof. reflexivity. Qed.

(** ** Running the factory *)

Lemma alter_insert_cell (h : heap) l (t : Table) k v :
  h !! l = Some t ->
  alter (fun t => <[k := v]> t) l h = <[l := <[k := v]> t]> h.
Proof.
  intros Hl. apply list_eq. intros i.
  destruct (decide (l = i)) as [->|Hne].
  - rewrite list_lookup_alter_eq, Hl. simpl.
    rewrite list_lookup_insert_eq; [done|]. by eapply lookup_lt_Some.
  - by rewrite list_lookup_alter_ne, list_lookup_insert_ne.
Qed.

Ltac run_m :=
  repeat (progress (unfold bind, ret, panic, map_index, map_assign,
                      assert_int64, make_map; simpl)).

Lemma GetKickbackMessage_run maxRetries msg h t :
  source_headers h msg = Some t ->
  GetKickbackMessage maxRetries msg h = kickback_outcome maxRetries msg h t.
Proof.
  unfold source_headers, GetKickbackMessage, kickback_outcome, target,
    current_count, store_headers.
  destruct (Delivery.Headers msg) as [l|] eqn:Hh; intros Ht.
  - assert (Hlt : (l < length h)%nat) by (by eapply lookup_lt_Some).
    run_m. rewrite Ht; run_m.
    destruct (t !! RetryCountHeader) as [v|] eqn:Hv; run_m.
    + rewrite Ht; run_m. rewrite Hv.
      destruct v; try reflexivity. run_m.
      destruct (z >? maxRetries) eqn:Hcmp; run_m.
      * rewrite (insert_id t) by done. by rewrite list_insert_id.
      * rewrite Ht; run_m. rewrite Hv; run_m.
        by rewrite (alter_insert_cell _ _ t).
    + rewrite list_lookup_alter_eq, Ht; run_m.
      rewrite lookup_insert_eq; run_m.
      rewrite (alter_insert_cell _ _ t) by done.
      destruct (0 >? maxRetries) eqn:Hcmp; run_m; [done|].
      rewrite list_lookup_insert_eq by done. run_m.
      rewrite lookup_insert_eq; run_m.
      rewrite (alter_insert_cell _ _ (<[RetryCountHeader:=VInt64 0]> t))
        by (by apply list_lookup_insert_eq).
      by rewrite list_insert_insert_eq, insert_insert_eq.
  - injection Ht as <-. run_m.
    rewrite !lookup_app_r, !Nat.sub_diag by lia. run_m.
    rewrite lookup_empty. run_m.
    rewrite alter_app_r_alt, Nat.sub_diag by lia. run_m.
    rewrite lookup_app_r, Nat.sub_diag by lia. run_m.
    rewrite lookup_insert_eq. run_m.
    destruct (0 >? maxRetries) eqn:Hcmp; run_m; [done|].
    rewrite lookup_app_r, Nat.sub_diag by lia. run_m.
    rewrite lookup_insert_eq. run_m.
    rewrite alter_app_r_alt, Nat.sub_diag by lia. run_m.
    by rewrite insert_insert_eq.
Qed.

Section FactoryRuns.
Context {body_t : Type}.
Variable json_Marshal : body_t -> bytes + error.

Lemma CreateMessage_run body raw h :
  json_Marshal body = inl raw ->
  CreateMessage json_Marshal body h =
    (Return (Publishing.mk (Some (length h)) "" "" 0 0 "" "" "" "" 0 "" "" ""
               raw, None),
     h ++ [{[RetryCountHeader := VInt64 0]}]).
Proof.
  intros Hm. unfold CreateMessage. rewrite Hm. run_m.
  by rewrite alter_app_r_alt, Nat.sub_diag by lia.
Qed.

Lemma GetNextMessage_run msg body raw h t :
  json_Marshal body = inl raw ->
  source_headers h msg = Some t ->
  GetNextMessage json_Marshal msg body h =
    (Return (Publishing.mk (Some (target h msg))
               (Delivery.ContentType msg) (Delivery.ContentEncoding msg)
               (Delivery.DeliveryMode msg) 0 "" "" "" "" 0
               (Delivery.Type_ msg) "" "" raw, None),
     store_headers h msg (<[RetryCountHeader := VInt64 0]> t)).
Proof.
  intros Hm. unfold GetNextMessage, source_headers, target, store_headers.
  rewrite Hm.
  destruct (Delivery.Headers msg) as [l|]; intros Ht; run_m.
  - by rewrite (alter_insert_cell _ _ t).
  - injection Ht as <-.
    by rewrite alter_app_r_alt, Nat.sub_diag by lia.
Qed.

Lemma marshal_failure_run msg body err h :
  json_Marshal body = inr err ->
  CreateMessage json_Marshal body h = (Return (Publishing.zero, Some err), h)
  /\ GetNextMessage json_Marshal msg body h
     = (Return (Publishing.zero, Some err), h).
Proof.
  intros Hm. unfold CreateMessage, GetNextMessage. by rewrite Hm.
Qed.
End FactoryRuns.

(** The header mapping written by a call, read back. *)
Lemma store_headers_target h msg t t' :
  source_headers h msg = Some t ->
  store_headers h msg t' !! target h msg = Some t'.
Proof.
  unfold source_headers, store_headers, target.
  destruct (Delivery.Headers msg) as [l|]; intros Ht.
  - apply list_lookup_insert_eq. by eapply lookup_lt_Some.
  - by rewrite lookup_app_r, Nat.sub_diag by lia.
Qed.

(** Every other map object of the store is untouched. *)
Lemma store_headers_other h msg t t' l :
  source_headers h msg = Some t ->
  l <> target h msg ->
  store_headers h msg t' !! l = h !! l.
Proof.
  unfold source_headers, store_headers, target.
  destruct (Delivery.Headers msg) as [l0|]; intros Ht Hne.
  - by rewrite list_lookup_insert_ne.
  - destruct (decide (l < length h)%nat).
    + by rewrite lookup_app_l.
    + rewrite !lookup_ge_None_2; [done|lia|]. rewrite length_app; simpl; lia.
Qed.

(** Writing the retry entry changes no other entry of any map object. *)
Lemma store_headers_frame h msg t v l k :
  source_headers h msg = Some t ->
  (l, k) <> (target h msg, RetryCountHeader) ->
  store_headers h msg (<[RetryCountHeader := v]> t) !! l ≫= (fun t => t !! k)
  = h !! l ≫= (fun t => t !! k).
Proof.
  intros Ht Hne. destruct (decide (l = target h msg)) as [->|Hl].
  - rewrite (store_headers_target _ _ t) by done. simpl.
    rewrite lookup_insert_ne by congruence.
    revert Ht. unfold source_headers, target.
    destruct (Delivery.Headers msg) as [l0|]; intros Ht.
    + by rewrite Ht.
    + injection Ht as <-. by rewrite lookup_ge_None_2 by lia.
  - by rewrite (store_headers_other _ _ t).
Qed.

(** ** Retry accounting of [GetKickbackMessage] *)

(** C1 (as amended).  For every delivery whose retry-count header is
    absent or holds an [int64] (its header field being nil or naming a
    map object of the store), [GetKickbackMessage] takes the
    pre-increment count [c] (0 when the header is absent); when [c] is
    strictly greater than [maxRetries] it returns the error and the zero
    envelope, and otherwise it returns an envelope whose retry-count
    header is [c + 1] in [int64] arithmetic, which is [c + 1] exactly
    whenever [c] is below the largest [int64]. *)
Theorem kickback_retry_accounting maxRetries msg h t c :
  source_headers h msg = Some t ->
  current_count t = Some c ->
  (c > maxRetries ->
     fst (GetKickbackMessage maxRetries msg h)
     = Return (Publishing.zero, Some (errors_New "too many retries")))
  /\ (c <= maxRetries ->
      exists pub,
        fst (GetKickbackMessage maxRetries msg h) = Return (pub, None)
        /\ retry_header (snd (GetKickbackMessage maxRetries msg h)) pub
           = Some (VInt64 (Int64.add c 1))
        /\ (Int64.min <= c < Int64.max -> Int64.add c 1 = c + 1)).
Proof.
  intros Ht Hc. rewrite (GetKickbackMessage_run _ _ _ t) by done.
  unfold kickback_outcome. rewrite Hc. split; intros Hcmp.
  - by rewrite (proj2 (Z.gtb_lt _ _)) by lia.
  - destruct (c >? maxRetries) eqn:Hgt; [apply Z.gtb_lt in Hgt; lia|].
    eexists. split; [done|]. split; [|apply Int64_add_succ].
    unfold retry_header, headers_of; simpl.
    rewrite (store_headers_target _ _ t) by done. simpl.
    apply lookup_insert_eq.
Qed.

Lemma kickback_retry_accounting_witness :
  (2 > 2 ->
     fst (GetKickbackMessage 2 (sample_delivery (Some 0%nat))
            [{[RetryCountHeader := VInt64 2]}])
     = Return (Publishing.zero, Some (errors_New "too many retries")))
  /\ (2 <= 2 ->
      exists pub,
        fst (GetKickbackMessage 2 (sample_delivery (Some 0%nat))
               [{[RetryCountHeader := VInt64 2]}]) = Return (pub, None)
        /\ retry_header
             (snd (GetKickbackMessage 2 (sample_delivery (Some 0%nat))
                     [{[RetryCountHeader := VInt64 2]}])) pub
           = Some (VInt64 (Int64.add 2 1))
        /\ (Int64.min <= 2 < Int64.max -> Int64.add 2 1 = 2 + 1)).
Proof.
  apply (kickback_retry_accounting 2 (sample_delivery (Some 0%nat))
           [{[RetryCountHeader := VInt64 2]}]
           {[RetryCountHeader := VInt64 2]} 2); reflexivity.
Defined.

(** C1 as the specification states it fails on two deliveries: one whose
    retry-count header holds a string (the call panics, so it yields
    neither the error nor an envelope), and one whose count is the
    largest [int64] with [maxRetries] equal to it (the header of the
    returned envelope wraps around to the smallest [int64]). *)
Lemma kickback_accounting_counterexample :
  (GetKickbackMessage 5 (sample_delivery (Some 0%nat))
     [{[RetryCountHeader := VString "3"]}]
   = (Panic "interface conversion: interface {} is not int64",
      [{[RetryCountHeader := VString "3"]}])
   /\ ~ kickback_accounting 5 (sample_delivery (Some 0%nat))
          [{[RetryCountHeader := VString "3"]}])
  /\ ((exists pub,
         fst (GetKickbackMessage Int64.max (sample_delivery (Some 0%nat))
                [{[RetryCountHeader := VInt64 Int64.max]}])
         = Return (pub, None)
         /\ retry_header
              (snd (GetKickbackMessage Int64.max
                      (sample_delivery (Some 0%nat))
                      [{[RetryCountHeader := VInt64 Int64.max]}])) pub
            = Some (VInt64 Int64.min))
      /\ ~ kickback_accounting Int64.max (sample_delivery (Some 0%nat))
             [{[RetryCountHeader := VInt64 Int64.max]}]).
Proof.
  split; split; try reflexivity.
  - intros (t & c & _ & _ & Hk).
    change (fst (GetKickbackMessage 5 (sample_delivery (Some 0%nat))
                   [{[RetryCountHeader := VString "3"]}]))
      with (@Panic (Publishing.t * option error)
              "interface conversion: interface {} is not int64") in Hk.
    destruct (c >? 5); destruct Hk as (? & Hk); [|destruct Hk as [Hk _]];
      discriminate Hk.
  - eexists. split; reflexivity.
  - intros (t & c & Ht & Hc & Hk).
    injection Ht as <-. unfold reads_count in Hc.
    rewrite lookup_singleton_eq in Hc. subst c.
    change (Int64.max >? Int64.max) with false in Hk.
    destruct Hk as (pub & Hpub & Hhdr).
    injection Hpub as <-. vm_compute in Hhdr. discriminate Hhdr.
Qed.

(** C10.  When the retry-count header of the source is present and holds
    anything but an [int64], [GetKickbackMessage] panics on the type
    assertion, returning neither an error nor an envelope and leaving
    the store as it was; when the header is absent or holds an [int64]
    the call returns. *)
Theorem kickback_panics_unless_int64 maxRetries msg h t :
  source_headers h msg = Some t ->
  (forall v, t !! RetryCountHeader = Some v -> (forall z, v <> VInt64 z) ->
     GetKickbackMessage maxRetries msg h
     = (Panic "interface conversion: interface {} is not int64", h))
  /\ (t !! RetryCountHeader = None
      \/ (exists z, t !! RetryCountHeader = Some (VInt64 z)) ->
      exists pub err,
        fst (GetKickbackMessage maxRetries msg h) = Return (pub, err)).
Proof.
  intros Ht. rewrite (GetKickbackMessage_run _ _ _ t) by done.
  unfold kickback_outcome, current_count. split.
  - intros v Hv Hne. rewrite Hv.
    destruct v; try reflexivity. by destruct (Hne z).
  - intros [Hv|[z Hv]]; rewrite Hv.
    + destruct (0 >? maxRetries); simpl; eauto.
    + destruct (z >? maxRetries); simpl; eauto.
Qed.

Lemma kickback_panics_unless_int64_witness :
  GetKickbackMessage 3 (sample_delivery (Some 0%nat))
    [{[RetryCountHeader := VInt32 1]}]
  = (Panic "interface conversion: interface {} is not int64",
     [{[RetryCountHeader := VInt32 1]}]).
Proof.
  refine (proj1 (kickback_panics_unless_int64 3 (sample_delivery (Some 0%nat))
                   [{[RetryCountHeader := VInt32 1]}]
                   {[RetryCountHeader := VInt32 1]} _) (VInt32 1) _ _).
  - reflexivity.
  - reflexivity.
  - intros z Hz. discriminate Hz.
Defined.

(** ** Serialization *)

Section Serialization.
Context {body_t : Type}.
Variable json_Marshal : body_t -> bytes + error.

(** C6.  For every serializable body, [CreateMessage] returns without
    error an envelope whose header mapping is exactly the retry-count
    entry set to 0, whose body is the serialized bytes, and whose other
    fields all have their zero value. *)
Theorem create_message_fresh body raw h :
  json_Marshal body = inl raw ->
  exists pub h',
    CreateMessage json_Marshal body h = (Return (pub, None), h')
    /\ headers_of h' pub = Some {[RetryCountHeader := VInt64 0]}
    /\ Publishing.Body pub = raw
    /\ pub = Publishing.mk (Publishing.Headers pub)
               "" "" 0 0 "" "" "" "" 0 "" "" "" (Publishing.Body pub)
    /\ (forall l, (l < length h)%nat -> h' !! l = h !! l).
Proof.
  intros Hm. rewrite (CreateMessage_run _ _ raw) by done.
  eexists _, _. split; [done|]. unfold headers_of; simpl.
  rewrite lookup_app_r, Nat.sub_diag by lia.
  repeat split; try done. intros l Hl. by rewrite lookup_app_l.
Qed.

(** C5.  For every source delivery (its header field nil or naming a
    map object of the store) and every serializable body,
    [GetNextMessage] returns without error an envelope whose
    retry-count header is 0 whatever the source's retry count was,
    whose content type, content encoding, delivery mode and type are
    the source's, whose body is the serialized bytes of the new body,
    and whose header mapping is the source's with the retry count
    overwritten (the empty mapping with it when the source had none). *)
Theorem next_message_resets_retries msg body raw h t :
  json_Marshal body = inl raw ->
  source_headers h msg = Some t ->
  exists pub h',
    GetNextMessage json_Marshal msg body h = (Return (pub, None), h')
    /\ retry_header h' pub = Some (VInt64 0)
    /\ Publishing.ContentType pub = Delivery.ContentType msg
    /\ Publishing.ContentEncoding pub = Delivery.ContentEncoding msg
    /\ Publishing.DeliveryMode pub = Delivery.DeliveryMode msg
    /\ Publishing.Type_ pub = Delivery.Type_ msg
    /\ Publishing.Body pub = raw
    /\ headers_of h' pub = Some (<[RetryCountHeader := VInt64 0]> t)
    /\ (Delivery.Headers msg = None ->
        headers_of h' pub = Some {[RetryCountHeader := VInt64 0]}).
Proof.
  intros Hm Ht. rewrite (GetNextMessage_run _ _ _ raw _ t) by done.
  eexists _, _. split; [done|].
  unfold retry_header, headers_of; simpl.
  rewrite (store_headers_target _ _ t) by done. simpl.
  rewrite lookup_insert_eq. repeat split; try done.
  intros Hnil. unfold source_headers in Ht. rewrite Hnil in Ht.
  by injection Ht as <-.
Qed.

(** C7.  [CreateMessage] and [GetNextMessage] return an error exactly
    when the body cannot be serialized; the error is the one
    [json.Marshal] gave, it comes with the zero envelope, and the store
    is untouched.  When serialization succeeds both return an envelope
    and no error. *)
Theorem serialization_error_surfaced msg body h :
  match json_Marshal body with
  | inr err =>
      CreateMessage json_Marshal body h
      = (Return (Publishing.zero, Some err), h)
      /\ GetNextMessage json_Marshal msg body h
         = (Return (Publishing.zero, Some err), h)
  | inl _ =>
      (exists pub h',
         CreateMessage json_Marshal body h = (Return (pub, None), h'))
      /\ (exists pub h',
            GetNextMessage json_Marshal msg body h
            = (Return (pub, None), h'))
  end.
Proof.
  destruct (json_Marshal body) as [raw|err] eqn:Hm.
  - split.
    + rewrite (CreateMessage_run _ _ raw) by done. eauto.
    + unfold GetNextMessage. rewrite Hm.
      destruct (Delivery.Headers msg); run_m; eauto.
  - by apply marshal_failure_run.
Qed.
End Serialization.

Lemma create_message_fresh_witness :
  exists pub h',
    CreateMessage sample_Marshal (Some [34; 104; 105; 34]) []
    = (Return (pub, None), h')
    /\ headers_of h' pub = Some {[RetryCountHeader := VInt64 0]}
    /\ Publishing.Body pub = [34; 104; 105; 34]
    /\ pub = Publishing.mk (Publishing.Headers pub)
               "" "" 0 0 "" "" "" "" 0 "" "" "" (Publishing.Body pub)
    /\ (forall l, (l < length (@nil Table))%nat -> h' !! l = @nil Table !! l).
Proof.
  apply (create_message_fresh sample_Marshal (Some [34; 104; 105; 34])
           [34; 104; 105; 34] []).
  reflexivity.
Defined.

Lemma next_message_resets_retries_witness :
  exists pub h',
    GetNextMessage sample_Marshal (sample_delivery (Some 0%nat))
      (Some [49]) [{[RetryCountHeader := VInt64 7]}]
    = (Return (pub, None), h')
    /\ retry_header h' pub = Some (VInt64 0).
Proof.
  destruct (next_message_resets_retries sample_Marshal
              (sample_delivery (Some 0%nat)) (Some [49]) [49]
              [{[RetryCountHeader := VInt64 7]}]
              {[RetryCountHeader := VInt64 7]}
              ltac:(reflexivity) ltac:(reflexivity))
    as (pub & h' & Hrun & Hretry & _).
  exists pub, h'. split; assumption.
Defined.

(** ** Sharing of the header mapping *)

(** C3 (as amended).  For every source delivery, the envelope
    [GetKickbackMessage] and [GetNextMessage] return refers to the
    source's own header mapping (to a new mapping when the source had
    none), not to a copy: the envelope holds the very reference the
    delivery holds, and the store after the call is the store before it
    with the retry count written into that one map object, so a source
    with headers reads the new retry count afterwards.  For
    [GetNextMessage] this holds whatever the source's headers contain,
    for [GetKickbackMessage] whenever it returns an envelope.  Nothing
    else is written, by any outcome of either call: every other entry of
    that mapping and every other map object of the store is as before, a
    source without headers still has none, and [GetKickbackMessage]
    carries the body bytes of the source over unchanged. *)
Theorem envelope_shares_source_headers {body_t : Type}
    (json_Marshal : body_t -> bytes + error) msg h t :
  source_headers h msg = Some t ->
  (forall maxRetries c, current_count t = Some c -> c <= maxRetries ->
     exists pub h',
       GetKickbackMessage maxRetries msg h = (Return (pub, None), h')
       /\ match Delivery.Headers msg with
          | Some l =>
              Publishing.Headers pub = Some l
              /\ h' = <[l := <[RetryCountHeader := VInt64 (Int64.add c 1)]> t]> h
          | None =>
              Publishing.Headers pub = Some (length h)
              /\ h' = h ++ [{[RetryCountHeader := VInt64 (Int64.add c 1)]}]
          end
       /\ headers_of h' pub
          = Some (<[RetryCountHeader := VInt64 (Int64.add c 1)]> t)
       /\ Publishing.Body pub = Delivery.Body msg
       /\ source_headers h' msg
          = match Delivery.Headers msg with
            | None => Some ∅
            | Some _ =>
                Some (<[RetryCountHeader := VInt64 (Int64.add c 1)]> t)
            end)
  /\ (forall body raw, json_Marshal body = inl raw ->
      exists pub h',
        GetNextMessage json_Marshal msg body h = (Return (pub, None), h')
        /\ match Delivery.Headers msg with
           | Some l =>
               Publishing.Headers pub = Some l
               /\ h' = <[l := <[RetryCountHeader := VInt64 0]> t]> h
           | None =>
               Publishing.Headers pub = Some (length h)
               /\ h' = h ++ [{[RetryCountHeader := VInt64 0]}]
           end
        /\ headers_of h' pub = Some (<[RetryCountHeader := VInt64 0]> t)
        /\ source_headers h' msg
           = match Delivery.Headers msg with
             | None => Some ∅
             | Some _ => Some (<[RetryCountHeader := VInt64 0]> t)
             end)
  /\ (forall maxRetries l k, (l, k) <> (target h msg, RetryCountHeader) ->
        snd (GetKickbackMessage maxRetries msg h) !! l ≫= (fun t => t !! k)
        = h !! l ≫= (fun t => t !! k))
  /\ (forall body l k, (l, k) <> (target h msg, RetryCountHeader) ->
        snd (GetNextMessage json_Marshal msg body h) !! l
          ≫= (fun t => t !! k)
        = h !! l ≫= (fun t => t !! k)).
Proof.
  intros Ht.
  assert (Hsrc : forall t',
    source_headers (store_headers h msg t') msg
    = match Delivery.Headers msg with None => Some ∅ | Some _ => Some t' end).
  { intros t'. pose proof (store_headers_target h msg t t' Ht) as Htg.
    revert Htg. unfold source_headers, target.
    by destruct (Delivery.Headers msg). }
  assert (Hshare : forall v (pub : Publishing.t),
    Publishing.Headers pub = Some (target h msg) ->
    match Delivery.Headers msg with
    | Some l =>
        Publishing.Headers pub = Some l
        /\ store_headers h msg (<[RetryCountHeader := v]> t)
           = <[l := <[RetryCountHeader := v]> t]> h
    | None =>
        Publishing.Headers pub = Some (length h)
        /\ store_headers h msg (<[RetryCountHeader := v]> t)
           = h ++ [{[RetryCountHeader := v]}]
    end).
  { intros v pub. revert Ht. unfold source_headers, target, store_headers.
    destruct (Delivery.Headers msg) as [l|]; intros Ht Hpub; [done|].
    injection Ht as <-. by rewrite insert_empty. }
  split; [|split; [|split]].
  - intros maxRetries c Hc Hle.
    rewrite (GetKickbackMessage_run _ _ _ t) by done.
    unfold kickback_outcome. rewrite Hc.
    destruct (c >? maxRetries) eqn:Hgt; [apply Z.gtb_lt in Hgt; lia|].
    eexists _, _. split; [done|]. split; [by apply Hshare|].
    unfold headers_of; simpl.
    rewrite (store_headers_target _ _ t) by done. by repeat split.
  - intros body raw Hm.
    rewrite (GetNextMessage_run _ _ _ raw _ t) by done.
    eexists _, _. split; [done|]. split; [by apply Hshare|].
    unfold headers_of; simpl.
    rewrite (store_headers_target _ _ t) by done. by repeat split.
  - intros maxRetries l k Hne.
    rewrite (GetKickbackMessage_run _ _ _ t) by done.
    unfold kickback_outcome.
    destruct (current_count t) as [c|]; [|done].
    destruct (c >? maxRetries); simpl; by apply store_headers_frame.
  - intros body l k Hne.
    destruct (json_Marshal body) as [raw|err] eqn:Hm.
    + rewrite (GetNextMessage_run _ _ _ raw _ t) by done. simpl.
      by apply store_headers_frame.
    + by rewrite (proj2 (marshal_failure_run json_Marshal msg body err h Hm)).
Qed.

Lemma envelope_shares_source_headers_witness :
  (exists pub h',
     GetKickbackMessage 3 (sample_delivery (Some 0%nat))
       [{[RetryCountHeader := VInt64 1]}] = (Return (pub, None), h')
     /\ Publishing.Headers pub = Some 0%nat
     /\ h' = <[0%nat := <[RetryCountHeader := VInt64 (Int64.add 1 1)]>
                          {[RetryCountHeader := VInt64 1]}]>
               [{[RetryCountHeader := VInt64 1]}])
  /\ (exists pub h',
        GetNextMessage sample_Marshal (sample_delivery (Some 0%nat))
          (Some [49]) [{[RetryCountHeader := VString "many"]}]
        = (Return (pub, None), h')
        /\ Publishing.Headers pub = Some 0%nat
        /\ h' = <[0%nat := <[RetryCountHeader := VInt64 0]>
                             {[RetryCountHeader := VString "many"]}]>
                  [{[RetryCountHeader := VString "many"]}]).
Proof.
  split.
  - destruct (proj1 (envelope_shares_source_headers sample_Marshal
                (sample_delivery (Some 0%nat))
                [{[RetryCountHeader := VInt64 1]}]
                {[RetryCountHeader := VInt64 1]} ltac:(reflexivity))
              3 1 ltac:(reflexivity) ltac:(lia))
      as (pub & h' & Hrun & [Hhd Hst] & _).
    exists pub, h'. repeat split; assumption.
  - destruct (proj1 (proj2 (envelope_shares_source_headers sample_Marshal
                (sample_delivery (Some 0%nat))
                [{[RetryCountHeader := VString "many"]}]
                {[RetryCountHeader := VString "many"]} ltac:(reflexivity)))
              (Some [49]) [49] ltac:(reflexivity))
      as (pub & h' & Hrun & [Hhd Hst] & _).
    exists pub, h'. repeat split; assumption.
Defined.

(** C3 as the specification states it fails: the header mapping of a
    source that has headers is written to by both operations. *)
Lemma source_headers_written_counterexample :
  source_headers
    [{[RetryCountHeader := VInt64 5]}] (sample_delivery (Some 0%nat))
  = Some {[RetryCountHeader := VInt64 5]}
  /\ source_headers
       (snd (GetKickbackMessage 9 (sample_delivery (Some 0%nat))
               [{[RetryCountHeader := VInt64 5]}]))
       (sample_delivery (Some 0%nat))
     = Some {[RetryCountHeader := VInt64 6]}
  /\ source_headers
       (snd (GetNextMessage sample_Marshal (sample_delivery (Some 0%nat))
               (Some [49]) [{[RetryCountHeader := VInt64 5]}]))
       (sample_delivery (Some 0%nat))
     = Some {[RetryCountHeader := VInt64 0]}.
Proof. repeat split; reflexivity. Qed.

(** ** Kickback chains *)

Lemma counts_cons from n :
  counts from (S n) = Kicked (Some (VInt64 from)) :: counts (from + 1) n.
Proof.
  unfold counts. rewrite seqZ_cons by lia.
  rewrite fmap_cons. do 3 f_equal; lia.
Qed.

(** One successful link of a chain: the next call starts from the count
    this one wrote. *)
Lemma kickback_chain_link maxRetries n msg h t c :
  source_headers h msg = Some t ->
  current_count t = Some c ->
  c <= maxRetries ->
  exists msg' h' t',
    kickback_chain maxRetries (S n) msg h
    = Kicked (Some (VInt64 (Int64.add c 1)))
        :: kickback_chain maxRetries n msg' h'
    /\ source_headers h' msg' = Some t'
    /\ current_count t' = Some (Int64.add c 1).
Proof.
  intros Ht Hc Hle. simpl.
  rewrite (GetKickbackMessage_run _ _ _ t) by done.
  unfold kickback_outcome. rewrite Hc.
  destruct (c >? maxRetries) eqn:Hgt; [apply Z.gtb_lt in Hgt; lia|].
  eexists _, _, _. split; [|split].
  - unfold retry_header, headers_of; simpl.
    rewrite (store_headers_target _ _ t) by done. simpl.
    by rewrite lookup_insert_eq.
  - unfold source_headers; simpl. by apply (store_headers_target _ _ t).
  - unfold current_count. by rewrite lookup_insert_eq.
Qed.

Lemma kickback_chain_exhausted maxRetries n msg h t c :
  source_headers h msg = Some t ->
  current_count t = Some c ->
  c > maxRetries ->
  kickback_chain maxRetries (S n) msg h
  = [Exhausted (errors_New "too many retries")].
Proof.
  intros Ht Hc Hgt. simpl.
  rewrite (GetKickbackMessage_run _ _ _ t) by done.
  unfold kickback_outcome. rewrite Hc.
  by rewrite (proj2 (Z.gtb_lt _ _)) by lia.
Qed.

Lemma kickback_chain_from maxRetries m : forall msg h t c,
  0 <= c ->
  c + Z.of_nat m = maxRetries + 1 ->
  maxRetries < Int64.max ->
  source_headers h msg = Some t ->
  current_count t = Some c ->
  kickback_chain maxRetries (S m) msg h
  = counts (c + 1) m ++ [Exhausted (errors_New "too many retries")].
Proof.
  induction m as [|m IH]; intros msg h t c Hc0 Hsum Hmax Ht Hc.
  - apply (kickback_chain_exhausted _ _ _ _ t c); [done|done|lia].
  - destruct (kickback_chain_link maxRetries (S m) msg h t c)
      as (msg' & h' & t' & Hstep & Ht' & Hc'); [done|done|lia|].
    rewrite Int64_add_succ in Hstep, Hc'
      by (unfold Int64.min, Int64.max in *; lia).
    rewrite Hstep, counts_cons. simpl. f_equal.
    apply (IH _ _ t'); [lia|lia|done|done|done].
Qed.

(** With [maxRetries] the largest [int64] no call of a chain is ever
    rejected. *)
Lemma kickback_chain_unbounded n : forall msg h t c,
  source_headers h msg = Some t ->
  current_count t = Some c ->
  c <= Int64.max ->
  forall err, Exhausted err ∉ kickback_chain Int64.max n msg h.
Proof.
  induction n as [|n IH]; intros msg h t c Ht Hc Hle err.
  - simpl. apply not_elem_of_nil.
  - destruct (kickback_chain_link Int64.max n msg h t c)
      as (msg' & h' & t' & Hstep & Ht' & Hc'); [done..|].
    rewrite Hstep. intros Hin. apply elem_of_cons in Hin as [Hin|Hin].
    + discriminate Hin.
    + revert Hin. apply (IH _ _ t' (Int64.add c 1)); [done..|].
      apply Int64_wrap_range.
Qed.

(** C2 (as amended).  For every [maxRetries] from 0 up to, but not
    including, the largest [int64], the chain of calls that starts from a
    delivery without a retry header yields the retry counts 1, 2, ...,
    [maxRetries + 1], each of those [maxRetries + 1] calls succeeding,
    and the next call is rejected with the retry error. *)
Theorem kickback_chain_counts maxRetries msg h t :
  0 <= maxRetries < Int64.max ->
  source_headers h msg = Some t ->
  t !! RetryCountHeader = None ->
  kickback_chain maxRetries (Z.to_nat (maxRetries + 2)) msg h
  = counts 1 (Z.to_nat (maxRetries + 1))
      ++ [Exhausted (errors_New "too many retries")].
Proof.
  intros Hmax Ht Hnone.
  replace (Z.to_nat (maxRetries + 2)) with (S (Z.to_nat (maxRetries + 1)))
    by lia.
  apply (kickback_chain_from _ _ _ _ t 0); [lia|lia|lia|done|].
  unfold current_count. by rewrite Hnone.
Qed.

Lemma kickback_chain_counts_witness :
  kickback_chain 2 4 (sample_delivery None) []
  = [Kicked (Some (VInt64 1)); Kicked (Some (VInt64 2));
     Kicked (Some (VInt64 3)); Exhausted (errors_New "too many retries")].
Proof.
  apply (kickback_chain_counts 2 (sample_delivery None) [] ∅).
  - unfold Int64.max. lia.
  - reflexivity.
  - reflexivity.
Defined.

(** C2 as the specification states it fails for [maxRetries] the largest
    [int64]: the count wraps around instead of reaching
    [maxRetries + 1], and no call of the chain is rejected. *)
Lemma kickback_chain_counterexample :
  kickback_chain Int64.max (Z.to_nat (Int64.max + 2)) (sample_delivery None) []
  <> counts 1 (Z.to_nat (Int64.max + 1))
       ++ [Exhausted (errors_New "too many retries")].
Proof.
  intros Heq.
  apply (kickback_chain_unbounded (Z.to_nat (Int64.max + 2))
           (sample_delivery None) [] ∅ 0 eq_refl eq_refl
           ltac:(unfold Int64.max; lia)
           (errors_New "too many retries")).
  rewrite Heq. apply elem_of_app. right. apply list_elem_of_singleton.
  reflexivity.
Qed.

(** ** The uniqueness validator *)

Lemma unique_loop_spec confs log rest : forall pre (queues : gmap string bool),
  NoDup (config.QueueName <$> pre) ->
  (forall name, is_Some (queues !! name) <-> name ∈ config.QueueName <$> pre) ->
  size queues = length pre ->
  unique_loop confs rest (Z.of_nat (length pre)) queues log
  = if decide (NoDup (config.QueueName <$> pre ++ rest))
    then (Return tt, log)
    else (Panic "queue names are not unique",
          log ++ report confs ++ [LogPanic "queue names are not unique"]).
Proof.
  induction rest as [|c rest IH]; intros pre queues Hnd Hdom Hsize.
  - simpl. rewrite app_nil_r. by rewrite decide_True.
  - simpl. destruct (queues !! config.QueueName c) as [b|] eqn:Hq.
    + rewrite map_size_insert_Some by (by exists b).
      rewrite decide_True by lia. rewrite decide_False; [done|].
      rewrite fmap_app, fmap_cons. intros Hnd'.
      apply NoDup_app in Hnd' as (_ & Hdisj & _).
      apply (Hdisj (config.QueueName c)).
      * apply Hdom. by exists b.
      * apply elem_of_cons. by left.
    + rewrite map_size_insert_None by done.
      rewrite decide_False by lia.
      replace (Z.of_nat (length pre) + 1) with (Z.of_nat (length (pre ++ [c])))
        by (rewrite length_app; simpl; lia).
      rewrite (IH (pre ++ [c])).
      * by rewrite <- app_assoc.
      * rewrite fmap_app. apply NoDup_app. split; [done|]. split.
        -- intros name Hin Hin'. apply list_elem_of_singleton in Hin'.
           subst name. apply Hdom in Hin as [b Hb]. congruence.
        -- apply NoDup_singleton.
      * intros name. rewrite fmap_app, elem_of_app. simpl.
        rewrite list_elem_of_singleton, <- Hdom.
        destruct (decide (name = config.QueueName c)) as [->|Hne].
        -- rewrite lookup_insert_eq. split; [by right|by eexists].
        -- rewrite lookup_insert_ne by done.
           split; [by left|by intros [?|?]].
      * rewrite map_size_insert_None by done.
        rewrite length_app; simpl; lia.
Qed.

(** C4.  [AssertUniqueQueues] returns, having logged nothing, exactly
    when the queue names of the configurations are pairwise distinct;
    otherwise it logs, for every configuration in order, an error line
    made of its index and its queue name, logs the panic message, and
    panics.  The duplicate is found by the loop itself ([unique_loop]),
    which compares the number of distinct names seen so far, less one,
    with the current index. *)
Theorem assert_unique_queues_spec log confs :
  AssertUniqueQueues log confs
  = if decide (NoDup (config.QueueName <$> confs))
    then (Return tt, log)
    else (Panic "queue names are not unique",
          log
          ++ imap (fun j c =>
                     LogErrorf "%d = %s"
                       [ArgInt (Z.of_nat j); ArgString (config.QueueName c)])
               confs
          ++ [LogPanic "queue names are not unique"]).
Proof.
  unfold AssertUniqueQueues.
  apply (unique_loop_spec confs log confs [] ∅).
  - apply NoDup_nil_2.
  - intros name. rewrite lookup_empty. simpl. split.
    + by intros [? ?].
    + intros Hin. by apply elem_of_nil in Hin.
  - done.
Qed.

Example assert_unique_queues_duplicate :
  AssertUniqueQueues [] [sample_conf "a" "x"; sample_conf "b" ""; sample_conf "a" "y"]
  = (Panic "queue names are not unique",
     [LogErrorf "%d = %s" [ArgInt 0; ArgString "a"];
      LogErrorf "%d = %s" [ArgInt 1; ArgString "b"];
      LogErrorf "%d = %s" [ArgInt 2; ArgString "a"];
      LogPanic "queue names are not unique"]).
Proof. reflexivity. Qed.

Example assert_unique_queues_distinct :
  AssertUniqueQueues [] [sample_conf "a" "x"; sample_conf "b" ""; sample_conf "c" "x"]
  = (Return tt, []).
Proof. reflexivity. Qed.

(** ** The fan-out machine *)

Lemma concat_all_nil {A} (ls : list (list A)) :
  Forall (fun l => l = []) ls -> concat ls = [].
Proof. induction 1 as [|l ls -> _ IH]; simpl; [done|by rewrite IH]. Qed.

Lemma concat_fmap_insert {B} (f : goroutine -> list B) (gs : list goroutine) :
  forall (g : nat) gr gr' x,
  gs !! g = Some gr ->
  f gr' = f gr ++ x ->
  concat (f <$> <[g := gr']> gs) ≡ₚ concat (f <$> gs) ++ x.
Proof.
  induction gs as [|g0 gs IH]; intros g gr gr' x Hg Hf; [done|].
  destruct g as [|g]; simpl in *.
  - injection Hg as ->. rewrite Hf, <- !app_assoc.
    apply Permutation_app_head, Permutation_app_comm.
  - rewrite (IH g gr gr' x) by done. by rewrite app_assoc.
Qed.

Lemma done_calls_advance gr ins :
  prog gr !! pc gr = Some ins ->
  done_calls (advance gr) = done_calls gr ++ calls_of [ins].
Proof.
  intros Hins. unfold done_calls, advance, calls_of; simpl.
  by rewrite (take_S_r _ _ ins), omap_app.
Qed.

Lemma done_sends_advance gr ins :
  prog gr !! pc gr = Some ins ->
  done_sends (advance gr) = done_sends gr ++ sends_of [ins].
Proof.
  intros Hins. unfold done_sends, advance, sends_of; simpl.
  by rewrite (take_S_r _ _ ins), omap_app.
Qed.

Lemma spawned_progs_S F k :
  spawned_progs F (S k) = spawned_progs F k ++ spawn F k.
Proof.
  unfold spawned_progs. rewrite seq_S, fmap_app, concat_app. simpl.
  by rewrite app_nil_r.
Qed.

Lemma progs_advance (gs : list goroutine) (g : nat) gr :
  gs !! g = Some gr ->
  prog <$> <[g := advance gr]> gs = prog <$> gs.
Proof.
  intros Hg. rewrite list_fmap_insert. apply list_insert_id.
  by rewrite list_lookup_fmap, Hg.
Qed.

Lemma inv_init F log0 : inv F log0 (init log0).
Proof.
  split; simpl; try done.
  - lia.
  - exists []. simpl. by rewrite app_nil_r.
Qed.

Lemma inv_step F log0 a s s' :
  inv F log0 s -> step F a s = Some s' -> inv F log0 s'.
Proof.
  intros [Hsp Hprogs Hpc Htr (sent & Hsent & Hrecv & Hlog) Hret] Hstep.
  destruct a as [|g|]; simpl in Hstep.
  - case_decide as Hen; [|done]. destruct Hen as [Hnr Hlt].
    injection Hstep as <-. split; simpl.
    + lia.
    + rewrite fmap_app, spawned_progs_S, Hprogs. f_equal.
      rewrite <- list_fmap_compose. apply list_fmap_id.
    + apply Forall_app. split; [done|].
      apply Forall_fmap, Forall_true. intros p. simpl. lia.
    + rewrite fmap_app, concat_app, (concat_all_nil (_ <$> (_ <$> _))).
      * by rewrite app_nil_r.
      * apply Forall_fmap, Forall_fmap, Forall_true. by intros p.
    + exists sent. split; [|done].
      rewrite fmap_app, concat_app, (concat_all_nil (_ <$> (_ <$> _))).
      * by rewrite app_nil_r.
      * apply Forall_fmap, Forall_fmap, Forall_true. by intros p.
    + congruence.
  - destruct (goroutines s !! g) as [gr|] eqn:Hg; [|done].
    destruct (prog gr !! pc gr) as [[c|e]|] eqn:Hins; [| |done].
    + injection Hstep as <-. split; simpl.
      * done.
      * by rewrite progs_advance.
      * apply Forall_insert; [done|]. simpl.
        apply lookup_lt_Some in Hins. lia.
      * rewrite (concat_fmap_insert done_calls _ _ gr _ [c]); [|done|].
        -- by rewrite Htr.
        -- by rewrite (done_calls_advance _ (Do c)).
      * exists sent. split; [|done].
        rewrite (concat_fmap_insert done_sends _ _ gr _ []); [|done|].
        -- by rewrite app_nil_r.
        -- by rewrite (done_sends_advance _ (Do c)).
      * done.
    + case_decide as Hen; [|done]. destruct Hen as (Hnr & Hall & Hlt).
      injection Hstep as <-. split; simpl.
      * done.
      * by rewrite progs_advance.
      * apply Forall_insert; [done|]. simpl.
        apply lookup_lt_Some in Hins. lia.
      * rewrite (concat_fmap_insert done_calls _ _ gr _ []); [|done|].
        -- by rewrite app_nil_r.
        -- by rewrite (done_calls_advance _ (Send e)).
      * exists (sent ++ [e]). split; [|split].
        -- rewrite (concat_fmap_insert done_sends _ _ gr _ [e]); [|done|].
           ++ by rewrite Hsent.
           ++ by rewrite (done_sends_advance _ (Send e)).
        -- rewrite length_app. simpl. lia.
        -- rewrite Hlog, bind_app, <- app_assoc. simpl.
           by rewrite app_nil_r.
      * congruence.
  - case_decide as Hen; [|done]. destruct Hen as (Hnr & Hall & Hexp).
    injection Hstep as <-. split; simpl; try done.
    by exists sent.
Qed.

Lemma inv_exec F log0 acts : forall s s',
  inv F log0 s -> exec F acts s = Some s' -> inv F log0 s'.
Proof.
  induction acts as [|a acts IH]; intros s s' Hinv Hexec; simpl in Hexec.
  - by injection Hexec as <-.
  - destruct (step F a s) as [s1|] eqn:Hstep; [|done].
    apply (IH s1); [|done]. by apply (inv_step F log0 a s).
Qed.

(** *** The goroutines of a batch *)

Lemma fmap_seq_lookup {A B} (l : list A) (f : nat -> A -> B) (d : B) :
  (fun i => match l !! i with Some x => f i x | None => d end)
    <$> seq 0 (length l)
  = imap f l.
Proof.
  apply list_eq. intros i. rewrite list_lookup_fmap, list_lookup_imap.
  destruct (decide (i < length l)%nat) as [Hlt|Hge].
  - rewrite lookup_seq_lt by done. simpl.
    destruct (lookup_lt_is_Some_2 l i Hlt) as [x Hx]. by rewrite Hx.
  - rewrite lookup_seq_ge by lia. by rewrite lookup_ge_None_2 by lia.
Qed.

Lemma concat_fmap_concat_imap {A B C} (f : B -> list C) (l : list A) :
  forall (F : nat -> A -> list B) (G : nat -> A -> list C),
  (forall i x, concat (f <$> F i x) = G i x) ->
  concat (f <$> concat (imap F l)) = concat (imap G l).
Proof.
  induction l as [|x l IH]; intros F G HFG; [done|].
  rewrite !imap_cons. simpl. rewrite fmap_app, concat_app, HFG.
  f_equal. apply IH. intros i y. apply HFG.
Qed.

Lemma create_progs queues :
  spawned_progs (TryCreateQueues queues) (length queues)
  = concat (imap (fun i q => [create_queue_task i q; create_exchange_task i q])
              queues).
Proof. unfold spawned_progs. simpl. by rewrite fmap_seq_lookup. Qed.

Lemma concat_imap_singleton {A B} (l : list A) : forall (F : nat -> A -> B),
  concat (imap (fun i x => [F i x]) l) = imap F l.
Proof.
  induction l as [|x l IH]; intros F; [done|].
  rewrite !imap_cons. simpl. f_equal. apply (IH (F ∘ S)).
Qed.

Lemma bind_progs queues :
  spawned_progs (BindQueuesToExchange queues) (length queues)
  = imap bind_task queues.
Proof.
  unfold spawned_progs. simpl. rewrite fmap_seq_lookup.
  apply concat_imap_singleton.
Qed.

Lemma create_progs_calls queues :
  concat (calls_of <$> spawned_progs (TryCreateQueues queues) (length queues))
  = creation_calls (length queues).
Proof.
  rewrite create_progs. unfold creation_calls. rewrite <- imap_seq_0.
  by apply concat_fmap_concat_imap.
Qed.

Lemma create_progs_sends queues :
  concat (sends_of <$> spawned_progs (TryCreateQueues queues) (length queues))
  = creation_results queues.
Proof.
  rewrite create_progs. unfold creation_results.
  rewrite <- (imap_const (fun q => [CreateQueue q; CreateExchange q])).
  by apply concat_fmap_concat_imap.
Qed.

Lemma Forall_concat_imap {A B} (P : B -> Prop) (l : list A) :
  forall (F : nat -> A -> list B),
  (forall i x, Forall P (F i x)) -> Forall P (concat (imap F l)).
Proof.
  induction l as [|x l IH]; intros F HF; [done|].
  rewrite imap_cons. simpl. apply Forall_app. split; [done|].
  apply IH. intros i y. apply HF.
Qed.

Lemma length_concat_imap {A B} (n : nat) (l : list A) :
  forall (F : nat -> A -> list B),
  (forall i x, length (F i x) = n) ->
  length (concat (imap F l)) = (n * length l)%nat.
Proof.
  induction l as [|x l IH]; intros F HF; [simpl; lia|].
  rewrite imap_cons. simpl. rewrite length_app, HF, (IH (F ∘ S)); [lia|].
  intros i y. apply HF.
Qed.

Lemma create_progs_shape queues :
  Forall (fun p => exists c e, p = [Do c; Send e])
    (spawned_progs (TryCreateQueues queues) (length queues)).
Proof.
  rewrite create_progs. apply Forall_concat_imap. intros i q.
  repeat constructor; by eexists _, _.
Qed.

Lemma create_progs_length queues :
  length (spawned_progs (TryCreateQueues queues) (length queues))
  = (2 * length queues)%nat.
Proof. rewrite create_progs. by apply length_concat_imap. Qed.

(** *** Counting the values sent *)

Lemma done_sends_prefix g :
  (length (done_sends g) <= length (sends_of (prog g)))%nat.
Proof.
  unfold done_sends, sends_of.
  rewrite <- (take_drop (pc g) (prog g)) at 2.
  rewrite omap_app, length_app. lia.
Qed.

Lemma sends_bounded (gs : list goroutine) :
  Forall (fun g => (length (done_sends g) <= 1)%nat) gs ->
  (length (concat (done_sends <$> gs)) <= length gs)%nat.
Proof.
  induction 1 as [|g gs Hg _ IH]; csimpl; [done|].
  rewrite length_app. lia.
Qed.

(** When as many values were sent as there are goroutines, and none
    sends more than one, each has sent its value. *)
Lemma sends_all (gs : list goroutine) :
  Forall (fun g => (length (done_sends g) <= 1)%nat) gs ->
  length (concat (done_sends <$> gs)) = length gs ->
  Forall (fun g => length (done_sends g) = 1%nat) gs.
Proof.
  induction 1 as [|g gs Hg Hgs IH]; csimpl; [done|].
  rewrite length_app. intros Hlen.
  pose proof (sends_bounded gs Hgs).
  constructor; [lia|]. apply IH. lia.
Qed.

(** When fewer were sent, some goroutine has yet to send. *)
Lemma sends_pending (gs : list goroutine) :
  Forall (fun g => (length (done_sends g) <= 1)%nat) gs ->
  (length (concat (done_sends <$> gs)) < length gs)%nat ->
  exists (i : nat) g, gs !! i = Some g /\ done_sends g = [].
Proof.
  induction 1 as [|g gs Hg Hgs IH]; csimpl; [lia|].
  rewrite length_app. intros Hlen.
  destruct (done_sends g) as [|e l] eqn:Hd.
  - by exists 0%nat, g.
  - destruct IH as (i & g' & Hi & Hg'); [simpl in *; lia|].
    by exists (S i), g'.
Qed.

Lemma completed_calls (gs : list goroutine) :
  Forall completed gs ->
  done_calls <$> gs = calls_of <$> (prog <$> gs)
  /\ done_sends <$> gs = sends_of <$> (prog <$> gs).
Proof.
  intros Hall. rewrite <- !list_fmap_compose.
  split; apply Forall_fmap_ext_1; (eapply Forall_impl; [exact Hall|]);
    intros g Hg; unfold done_calls, done_sends; simpl;
    by rewrite Hg, firstn_all.
Qed.

Lemma create_task_completed g :
  (exists c e, prog g = [Do c; Send e]) ->
  (pc g <= length (prog g))%nat ->
  length (done_sends g) = 1%nat ->
  completed g.
Proof.
  destruct g as [p k]. unfold completed, done_sends. simpl.
  intros (c & e & ->) Hk. simpl in Hk.
  destruct k as [|[|[|k]]]; simpl; try done; lia.
Qed.

(** *** Every run can be continued until the caller returns *)

Lemma spawned_progs_prefix F k :
  (k <= iterations F)%nat ->
  exists rest, spawned_progs F (iterations F) = spawned_progs F k ++ rest.
Proof.
  intros Hk. unfold spawned_progs.
  generalize dependent (iterations F). intros n Hk.
  replace n with (k + (n - k))%nat by lia.
  rewrite seq_app, fmap_app, concat_app. by eexists.
Qed.

Lemma sum_pc_advance (gs : list goroutine) : forall (g : nat) gr,
  gs !! g = Some gr ->
  sum_list_with pc (<[g := advance gr]> gs) = S (sum_list_with pc gs).
Proof.
  induction gs as [|g0 gs IH]; intros g gr Hg; [done|].
  destruct g as [|g]; simpl in *.
  - by injection Hg as ->.
  - rewrite (IH g gr) by done. lia.
Qed.

Lemma sum_pc_start (ps : list (list instr)) :
  sum_list_with pc (start <$> ps) = 0%nat.
Proof. induction ps as [|p ps IH]; [done|]. exact IH. Qed.

Lemma steps_taken_step F a s s' :
  step F a s = Some s' -> steps_taken s' = S (steps_taken s).
Proof.
  unfold steps_taken. destruct a as [|g|]; simpl; intros Hstep.
  - case_decide as Hen; [|done]. injection Hstep as <-. simpl.
    rewrite sum_list_with_app, sum_pc_start. lia.
  - destruct (goroutines s !! g) as [gr|] eqn:Hg; [|done].
    destruct (prog gr !! pc gr) as [[c|e]|]; [| |done].
    + injection Hstep as <-. simpl. rewrite (sum_pc_advance _ _ gr) by done.
      lia.
    + case_decide; [|done]. injection Hstep as <-. simpl.
      rewrite (sum_pc_advance _ _ gr) by done. lia.
  - case_decide as Hen; [|done]. destruct Hen as (Hnr & _).
    injection Hstep as <-. simpl. rewrite Hnr. lia.
Qed.

Lemma sum_pc_bounded (gs : list goroutine) :
  Forall (fun g => (pc g <= length (prog g))%nat) gs ->
  (sum_list_with pc gs <= sum_list_with length (prog <$> gs))%nat.
Proof. induction 1 as [|g gs Hg _ IH]; csimpl; lia. Qed.

Lemma steps_taken_bounded F log0 s :
  inv F log0 s -> (steps_taken s <= steps_total F)%nat.
Proof.
  intros [Hsp Hprogs Hpc _ _ _]. unfold steps_taken, steps_total.
  pose proof (sum_pc_bounded _ Hpc) as Hsum. rewrite Hprogs in Hsum.
  destruct (spawned_progs_prefix F (spawned s) Hsp) as [rest ->].
  rewrite sum_list_with_app. destruct (returned s); lia.
Qed.

(** A state in which the caller has not returned is never stuck. *)
Lemma fanout_progress F log0 s :
  balanced F -> inv F log0 s -> returned s = false ->
  exists a s', step F a s = Some s'.
Proof.
  intros [Hone Hexp] [Hsp Hprogs Hpc _ (sent & Hsent & Hrecv & _) _] Hnr.
  destruct (decide (spawned s < iterations F)%nat) as [Hlt|Hge].
  { exists Spawn. simpl. rewrite decide_True by done. by eexists. }
  assert (Hall : spawned s = iterations F) by lia.
  rewrite Hall in Hprogs.
  assert (Hlen : length (goroutines s) = expect F).
  { by rewrite Hexp, <- Hprogs, length_fmap. }
  assert (Hsends : Forall (fun g => length (sends_of (prog g)) = 1%nat)
                     (goroutines s)).
  { apply (Forall_fmap prog (fun p => length (sends_of p) = 1%nat)).
    by rewrite Hprogs. }
  assert (Hle : Forall (fun g => (length (done_sends g) <= 1)%nat)
                  (goroutines s)).
  { eapply Forall_impl; [exact Hsends|]. intros g Hg. simpl in Hg.
    pose proof (done_sends_prefix g). lia. }
  pose proof (sends_bounded _ Hle) as Hbound.
  rewrite <- Hsent, <- Hrecv, Hlen in Hbound.
  destruct (decide (received s = expect F)) as [Heq|Hne].
  { exists Finish. simpl. rewrite decide_True by done. by eexists. }
  destruct (sends_pending _ Hle) as (i & g & Hi & Hg).
  { rewrite <- Hsent, <- Hrecv, Hlen. lia. }
  assert (Hpcg : (pc g < length (prog g))%nat).
  { destruct (decide (pc g < length (prog g))%nat) as [|Hfull]; [done|].
    pose proof (proj1 (Forall_lookup _ _) Hsends i g Hi) as Hs.
    simpl in Hs.
    unfold done_sends in Hg. rewrite take_ge in Hg by lia.
    rewrite Hg in Hs. done. }
  destruct (lookup_lt_is_Some_2 _ _ Hpcg) as [ins Hins].
  exists (Run i). simpl. rewrite Hi, Hins. destruct ins as [c|e].
  - by eexists.
  - rewrite decide_True by (repeat split; [done..|lia]). by eexists.
Qed.

Lemma fanout_completes F log0 : balanced F -> forall n s,
  inv F log0 s ->
  (steps_total F - steps_taken s <= n)%nat ->
  exists acts s', exec F acts s = Some s' /\ returned s' = true.
Proof.
  intros Hbal n. induction n as [|n IH]; intros s Hinv Hn.
  - destruct (returned s) eqn:Hret; [by exists [], s|].
    destruct (fanout_progress F log0 s Hbal Hinv Hret) as (a & s1 & Hstep).
    pose proof (steps_taken_step _ _ _ _ Hstep).
    pose proof (steps_taken_bounded F log0 s1 (inv_step _ _ _ _ _ Hinv Hstep)).
    lia.
  - destruct (returned s) eqn:Hret; [by exists [], s|].
    destruct (fanout_progress F log0 s Hbal Hinv Hret) as (a & s1 & Hstep).
    pose proof (steps_taken_step _ _ _ _ Hstep).
    destruct (IH s1) as (acts & s' & Hexec & Hs').
    + by apply (inv_step F log0 a s).
    + lia.
    + exists (a :: acts), s'. simpl. by rewrite Hstep.
Qed.

(** ** [TryCreateQueues] *)

Lemma create_balanced queues : balanced (TryCreateQueues queues).
Proof.
  split; simpl.
  - eapply Forall_impl; [apply create_progs_shape|].
    by intros p (c & e & ->).
  - rewrite create_progs_length. lia.
Qed.

Lemma create_joined queues log0 acts s :
  exec (TryCreateQueues queues) acts (init log0) = Some s ->
  returned s = true ->
  trace s ≡ₚ creation_calls (length queues)
  /\ length (trace s) = (2 * length queues)%nat
  /\ length (goroutines s) = (2 * length queues)%nat
  /\ Forall completed (goroutines s)
  /\ received s = (2 * length queues)%nat
  /\ exists sent,
       sent ≡ₚ creation_results queues
       /\ log s = log0 ++ (sent ≫= log_failure).
Proof.
  intros Hexec Hret.
  destruct (inv_exec _ log0 _ _ _ (inv_init _ log0) Hexec)
    as [_ Hprogs Hpc Htr (sent & Hsent & Hrecv & Hlog) Hfin].
  destruct (Hfin Hret) as [Hsp Hall]. simpl in Hsp, Hall.
  rewrite Hsp in Hprogs.
  assert (Hlen : length (goroutines s) = (2 * length queues)%nat).
  { by rewrite <- (length_fmap prog), Hprogs, create_progs_length. }
  assert (Hshape : Forall (fun g => exists c e, prog g = [Do c; Send e])
                     (goroutines s)).
  { apply (Forall_fmap prog (fun p => exists c e, p = [Do c; Send e])).
    rewrite Hprogs. apply create_progs_shape. }
  assert (Hdone : Forall completed (goroutines s)).
  { assert (Hle : Forall (fun g => (length (done_sends g) <= 1)%nat)
                    (goroutines s)).
    { eapply Forall_impl; [exact Hshape|]. intros g (c & e & Hg).
      pose proof (done_sends_prefix g) as Hp. by rewrite Hg in Hp. }
    pose proof (sends_all _ Hle) as Hone.
    rewrite <- Hsent, <- Hrecv, Hall, Hlen in Hone.
    specialize (Hone ltac:(lia)).
    apply Forall_forall. intros g Hg.
    apply create_task_completed.
    - by apply (proj1 (Forall_forall _ _) Hshape).
    - by apply (proj1 (Forall_forall _ _) Hpc).
    - by apply (proj1 (Forall_forall _ _) Hone). }
  destruct (completed_calls _ Hdone) as [Hcalls Hsends].
  rewrite Hcalls, Hprogs, create_progs_calls in Htr.
  rewrite Hsends, Hprogs, create_progs_sends in Hsent.
  split; [done|]. split.
  { rewrite Htr. unfold creation_calls. rewrite <- (imap_seq_0 queues).
    by apply length_concat_imap. }
  split; [done|]. split; [done|]. split; [lia|].
  by exists sent.
Qed.

(** C9.  Every run of [TryCreateQueues] on [N] services, whatever the
    order in which its goroutines are scheduled and whatever their calls
    answer, can be continued until the caller returns; and when the
    caller has returned there are [2 N] goroutines, each has completed,
    and the calls made are exactly one create-queue and one
    create-exchange per service, [2 N] in all; the caller has received
    the [2 N] results, and what it has added to the log is, in the order
    of reception, one debug entry "failed to create a queue or exchange"
    carrying the error for each call that failed, and nothing else. *)
Theorem try_create_queues_joins_all queues log0 acts s :
  exec (TryCreateQueues queues) acts (init log0) = Some s ->
  (exists acts' s',
     exec (TryCreateQueues queues) acts' s = Some s' /\ returned s' = true)
  /\ (returned s = true ->
      trace s ≡ₚ creation_calls (length queues)
      /\ length (trace s) = (2 * length queues)%nat
      /\ length (goroutines s) = (2 * length queues)%nat
      /\ Forall completed (goroutines s)
      /\ received s = (2 * length queues)%nat
      /\ exists errs,
           errs ≡ₚ omap id (creation_results queues)
           /\ log s
              = log0
                ++ ((fun err =>
                       LogDebug [("err", err)]
                         "failed to create a queue or exchange") <$> errs)).
Proof.
  intros Hexec. split.
  - apply (fanout_completes _ log0 (create_balanced queues)
             (steps_total (TryCreateQueues queues))); [|lia].
    by apply (inv_exec _ log0 acts (init log0)), Hexec; apply inv_init.
  - intros Hret.
    destruct (create_joined queues log0 acts s Hexec Hret)
      as (Htr & Hlen & Hgs & Hdone & Hrecv & sent & Hsent & Hlog).
    repeat (split; [done|]).
    exists (omap id sent). split; [by rewrite Hsent|].
    rewrite Hlog. f_equal. clear.
    induction sent as [|[err|] sent IH]; csimpl; [done| |done].
    by rewrite IH.
Qed.

Lemma try_create_queues_joins_all_witness :
  exists s,
    exec (TryCreateQueues [sample_service "a" "x"; sample_service "b" ""])
      [Spawn; Run 0%nat; Spawn; Run 3%nat; Run 3%nat; Run 1%nat; Run 2%nat;
       Run 0%nat; Run 2%nat; Run 1%nat; Finish] (init []) = Some s
    /\ returned s = true
    /\ log s
       = [LogDebug [("err", errors_New "exchange exists")]
            "failed to create a queue or exchange";
          LogDebug [("err", errors_New "queue exists")]
            "failed to create a queue or exchange";
          LogDebug [("err", errors_New "queue exists")]
            "failed to create a queue or exchange";
          LogDebug [("err", errors_New "exchange exists")]
            "failed to create a queue or exchange"]
    /\ trace s ≡ₚ creation_calls 2
    /\ length (trace s) = 4%nat
    /\ length (goroutines s) = 4%nat
    /\ Forall completed (goroutines s)
    /\ received s = 4%nat
    /\ exists errs,
         errs ≡ₚ omap id (creation_results
                            [sample_service "a" "x"; sample_service "b" ""])
         /\ log s
            = [] ++ ((fun err =>
                        LogDebug [("err", err)]
                          "failed to create a queue or exchange") <$> errs).
Proof.
  eexists. split; [vm_compute; reflexivity|]. split; [reflexivity|].
  split; [reflexivity|].
  apply (proj2 (try_create_queues_joins_all
              [sample_service "a" "x"; sample_service "b" ""] []
              [Spawn; Run 0%nat; Spawn; Run 3%nat; Run 3%nat; Run 1%nat;
               Run 2%nat; Run 0%nat; Run 2%nat; Run 1%nat; Finish]
              _ ltac:(vm_compute; reflexivity))).
  reflexivity.
Defined.

(** ** [BindQueuesToExchange] *)

Lemma filter_concat_none {A} (P : A -> Prop) `{forall x, Decision (P x)}
    (ls : list (list A)) :
  (forall (j : nat) l, ls !! j = Some l -> filter P l = []) ->
  filter P (concat ls) = [].
Proof.
  induction ls as [|l ls IH]; intros Hnone; [done|]. simpl.
  rewrite filter_app, (Hnone 0%nat l) by done. simpl.
  apply IH. intros j l' Hj. by apply (Hnone (S j)).
Qed.

Lemma filter_concat_single {A} (P : A -> Prop) `{forall x, Decision (P x)}
    (ls : list (list A)) : forall (i : nat) l,
  ls !! i = Some l ->
  (forall (j : nat) l', j <> i -> ls !! j = Some l' -> filter P l' = []) ->
  filter P (concat ls) = filter P l.
Proof.
  induction ls as [|l0 ls IH]; intros i l Hi Hother; [done|].
  simpl. rewrite filter_app. destruct i as [|i]; simpl in Hi.
  - injection Hi as ->. rewrite filter_concat_none; [by rewrite app_nil_r|].
    intros j l' Hj. by apply (Hother (S j)).
  - rewrite (Hother 0%nat l0) by done. simpl.
    apply (IH i); [done|]. intros j l' Hne Hj.
    apply (Hother (S j)); [lia|done].
Qed.

(** The goroutine of service [i] makes no bind call for another service. *)
Ltac split_pc k :=
  destruct k as [|[|[|[|[|k]]]]]; simpl; rewrite ?take_nil; simpl.

Ltac filter_calls :=
  repeat first
    [ rewrite filter_nil
    | rewrite filter_cons_True
        by (simpl; first [by apply bool_decide_pack | tauto])
    | rewrite filter_cons_False
        by (simpl; first [by intros ?%bool_decide_unpack | tauto]) ].

Lemma bind_task_other i j q g :
  prog g = bind_task i q ->
  j <> i ->
  filter (is_bind_of j) (done_calls g) = [].
Proof.
  destruct g as [p k]. unfold done_calls, bind_task. simpl.
  intros -> Hne.
  destruct (Channel q) as [ch|err]; [case_decide|];
    split_pc k; by filter_calls.
Qed.

(** Once the goroutine of a service whose channel was acquired has sent
    its value, its bind calls are settled: none for the default exchange,
    one for a named exchange, with the queue name as destination and as
    routing key. *)
Lemma bind_task_own i q ch g :
  prog g = bind_task i q ->
  Channel q = inl ch ->
  length (done_sends g) = 1%nat ->
  filter (is_bind_of i) (done_calls g)
  = if decide (config.Name (config.Exchange_ (Config q)) = "") then []
    else [CallQueueBind i (config.QueueName (Config q))
            (config.QueueName (Config q))
            (config.Name (config.Exchange_ (Config q))) false None].
Proof.
  destruct g as [p k]. unfold done_calls, done_sends, bind_task. simpl.
  intros -> -> Hsent. case_decide; split_pc k; simpl in Hsent;
    rewrite ?take_nil in Hsent; try done; by filter_calls.
Qed.

Lemma bind_task_one_send i q : length (sends_of (bind_task i q)) = 1%nat.
Proof.
  unfold bind_task. destruct (Channel q); [case_decide|]; reflexivity.
Qed.

Lemma bind_report_default i q ch :
  Channel q = inl ch ->
  config.Name (config.Exchange_ (Config q)) = "" ->
  bind_report i q = [None].
Proof.
  intros Hch Hname. unfold bind_report, bind_task.
  rewrite Hch. by rewrite decide_True.
Qed.

Lemma bind_balanced queues : balanced (BindQueuesToExchange queues).
Proof.
  split; simpl.
  - rewrite bind_progs. apply Forall_lookup. intros i p Hp.
    apply list_lookup_imap_Some in Hp as (q & _ & ->).
    apply bind_task_one_send.
  - by rewrite bind_progs, length_imap.
Qed.

Lemma done_sends_all g :
  length (done_sends g) = length (sends_of (prog g)) ->
  done_sends g = sends_of (prog g).
Proof.
  assert (Hsplit : sends_of (prog g)
                   = done_sends g ++ sends_of (drop (pc g) (prog g))).
  { unfold done_sends, sends_of.
    by rewrite <- omap_app, take_drop. }
  rewrite Hsplit, length_app. intros Hlen.
  destruct (sends_of (drop (pc g) (prog g))) as [|e l];
    [by rewrite app_nil_r|].
  simpl in Hlen. lia.
Qed.

Lemma bind_goroutines queues (gs : list goroutine) :
  prog <$> gs = imap bind_task queues ->
  forall (j : nat) g, gs !! j = Some g ->
    exists q, queues !! j = Some q /\ prog g = bind_task j q.
Proof.
  intros Hprogs j g Hj.
  assert (Hp : (prog <$> gs) !! j = Some (prog g))
    by (by rewrite list_lookup_fmap, Hj).
  rewrite Hprogs in Hp. apply list_lookup_imap_Some in Hp as (q & Hq & Hp).
  by exists q.
Qed.

(** C8 (as amended).  At the end of every run of
    [BindQueuesToExchange], for every service of the batch whose channel
    was acquired: when its exchange name is empty no bind call was made
    for it and its goroutine reported nil, so nothing is logged for it;
    when its exchange name is not empty exactly one bind call was made
    for it, on that exchange, with the queue's own name as destination
    queue and as routing key.  The log holds one entry per non-nil report
    and nothing else. *)
Theorem bind_skips_default_exchange queues log0 acts s i q ch :
  exec (BindQueuesToExchange queues) acts (init log0) = Some s ->
  returned s = true ->
  queues !! i = Some q ->
  Channel q = inl ch ->
  binds_as_specified i q s
  /\ exists sent,
       sent ≡ₚ concat (imap bind_report queues)
       /\ log s = log0 ++ (sent ≫= log_failure).
Proof.
  intros Hexec Hret Hq Hch.
  destruct (inv_exec _ log0 _ _ _ (inv_init _ log0) Hexec)
    as [_ Hprogs Hpc Htr (sent & Hsent & Hrecv & Hlog) Hfin].
  destruct (Hfin Hret) as [Hsp Hall]. simpl in Hsp, Hall.
  rewrite Hsp, bind_progs in Hprogs.
  pose proof (bind_goroutines _ _ Hprogs) as Hgs.
  assert (Hlen : length (goroutines s) = length queues).
  { by rewrite <- (length_fmap prog), Hprogs, length_imap. }
  assert (Hone : Forall (fun g => length (done_sends g) = 1%nat)
                   (goroutines s)).
  { assert (Hle : Forall (fun g => (length (done_sends g) <= 1)%nat)
                    (goroutines s)).
    { apply Forall_lookup. intros j g Hj.
      destruct (Hgs j g Hj) as (q' & _ & Hg).
      pose proof (done_sends_prefix g) as Hp.
      by rewrite Hg, bind_task_one_send in Hp. }
    apply (sends_all _ Hle).
    by rewrite <- Hsent, <- Hrecv, Hall, Hlen. }
  destruct (lookup_lt_is_Some_2 (goroutines s) i) as [g Hg].
  { rewrite Hlen. by eapply lookup_lt_Some. }
  destruct (Hgs i g Hg) as (q' & Hq' & Hprog).
  assert (q' = q) as -> by congruence.
  assert (Hown : filter (is_bind_of i) (trace s)
                 ≡ₚ filter (is_bind_of i) (done_calls g)).
  { rewrite Htr.
    rewrite (filter_concat_single _ _ i (done_calls g)); [done| |].
    - by rewrite list_lookup_fmap, Hg.
    - intros j l Hne Hj. rewrite list_lookup_fmap in Hj.
      destruct (goroutines s !! j) as [g'|] eqn:Hg'; [|done].
      injection Hj as <-.
      destruct (Hgs j g' Hg') as (qj & _ & Hpj).
      by apply (bind_task_other j i qj). }
  rewrite (bind_task_own i q ch) in Hown;
    [|done|done|by apply (proj1 (Forall_lookup _ _) Hone i)].
  split.
  - split; intros Hname.
    + rewrite decide_True in Hown by done.
      split; [by apply Permutation_nil_r|by apply (bind_report_default _ _ ch)].
    + rewrite decide_False in Hown by done.
      by apply Permutation_singleton_r.
  - exists sent. split; [|done]. rewrite Hsent.
    replace (imap bind_report queues) with (done_sends <$> goroutines s);
      [done|].
    apply list_eq. intros j.
    rewrite list_lookup_fmap, list_lookup_imap.
    destruct (goroutines s !! j) as [g'|] eqn:Hg'; simpl.
    + destruct (Hgs j g' Hg') as (qj & Hqj & Hpj). rewrite Hqj. simpl.
      f_equal. unfold bind_report. rewrite <- Hpj.
      apply done_sends_all. rewrite Hpj, bind_task_one_send.
      by apply (proj1 (Forall_lookup _ _) Hone j).
    + apply lookup_ge_None in Hg'. rewrite Hlen in Hg'.
      by rewrite lookup_ge_None_2.
Qed.

Lemma bind_skips_default_exchange_witness :
  exists s,
    exec (BindQueuesToExchange
            [sample_service "jobs" "work"; sample_service "events" ""])
      [Spawn; Run 0%nat; Spawn; Run 1%nat; Run 0%nat; Run 0%nat; Run 1%nat;
       Run 1%nat; Run 0%nat; Finish] (init []) = Some s
    /\ returned s = true
    /\ binds_as_specified 0 (sample_service "jobs" "work") s
    /\ binds_as_specified 1 (sample_service "events" "") s.
Proof.
  eexists. split; [vm_compute; reflexivity|]. split; [reflexivity|]. split.
  - apply (bind_skips_default_exchange
             [sample_service "jobs" "work"; sample_service "events" ""] []
             [Spawn; Run 0%nat; Spawn; Run 1%nat; Run 0%nat; Run 0%nat;
              Run 1%nat; Run 1%nat; Run 0%nat; Finish]
             _ 0%nat _ sample_channel);
      first [reflexivity | vm_compute; reflexivity].
  - apply (bind_skips_default_exchange
             [sample_service "jobs" "work"; sample_service "events" ""] []
             [Spawn; Run 0%nat; Spawn; Run 1%nat; Run 0%nat; Run 0%nat;
              Run 1%nat; Run 1%nat; Run 0%nat; Finish]
             _ 1%nat _ sample_channel);
      first [reflexivity | vm_compute; reflexivity].
Defined.

(** C8 as the specification states it fails for a service whose channel
    cannot be acquired: with the default exchange its error is reported
    and logged, and with a named exchange no bind call is made. *)
Lemma bind_default_exchange_counterexample :
  (exists s,
     exec (BindQueuesToExchange [failing_channel_service])
       [Spawn; Run 0%nat; Run 0%nat; Finish] (init []) = Some s
     /\ returned s = true
     /\ config.Name (config.Exchange_ (Config failing_channel_service)) = ""
     /\ bind_report 0 failing_channel_service
        = [Some (errors_New "channel closed")]
     /\ log s = [LogDebug [("err", errors_New "channel closed")]
                   "failed to create a queue or exchange"]
     /\ ~ binds_as_specified 0 failing_channel_service s)
  /\ (exists s,
        exec (BindQueuesToExchange
                [mkService None None (inr (errors_New "channel closed"))
                   (sample_conf "jobs" "work")])
          [Spawn; Run 0%nat; Run 0%nat; Finish] (init []) = Some s
        /\ returned s = true
        /\ trace s = [CallChannel 0]
        /\ ~ binds_as_specified 0
               (mkService None None (inr (errors_New "channel closed"))
                  (sample_conf "jobs" "work")) s).
Proof.
  split; eexists; (split; [vm_compute; reflexivity|]);
    repeat (split; [reflexivity|]).
  - intros [Hdefault _]. destruct (Hdefault eq_refl) as [_ Hrep].
    discriminate Hrep.
  - intros [_ Hnamed]. discriminate Hnamed. discriminate.
Qed.

(** A run of [BindQueuesToExchange] can likewise always be continued
    until the caller returns. *)
Lemma bind_queues_returns queues log0 acts s :
  exec (BindQueuesToExchange queues) acts (init log0) = Some s ->
  exists acts' s',
    exec (BindQueuesToExchange queues) acts' s = Some s'
    /\ returned s' = true.
Proof.
  intros Hexec.
  apply (fanout_completes _ log0 (bind_balanced queues)
           (steps_total (BindQueuesToExchange queues))); [|lia].
  by apply (inv_exec _ log0 acts (init log0)), Hexec; apply inv_init.
Qed.

(** * Further properties of the envelope factory *)

(** X1.  A kickback that is accepted carries over, beside the body, the
    content type, content encoding, delivery mode, priority, correlation
    id, reply-to, expiration, message id, timestamp and type of the
    source; the user id and the app id of the source are not carried
    over. *)
Theorem kickback_copies_metadata maxRetries msg h t c :
  source_headers h msg = Some t ->
  current_count t = Some c ->
  c <= maxRetries ->
  exists pub,
    fst (GetKickbackMessage maxRetries msg h) = Return (pub, None)
    /\ Publishing.ContentType pub = Delivery.ContentType msg
    /\ Publishing.ContentEncoding pub = Delivery.ContentEncoding msg
    /\ Publishing.DeliveryMode pub = Delivery.DeliveryMode msg
    /\ Publishing.Priority pub = Delivery.Priority msg
    /\ Publishing.CorrelationId pub = Delivery.CorrelationId msg
    /\ Publishing.ReplyTo pub = Delivery.ReplyTo msg
    /\ Publishing.Expiration pub = Delivery.Expiration msg
    /\ Publishing.MessageId pub = Delivery.MessageId msg
    /\ Publishing.Timestamp pub = Delivery.Timestamp msg
    /\ Publishing.Type_ pub = Delivery.Type_ msg
    /\ Publishing.Body pub = Delivery.Body msg
    /\ Publishing.UserId pub = ""
    /\ Publishing.AppId pub = "".
Proof.
  intros Ht Hc Hle. rewrite (GetKickbackMessage_run _ _ _ t) by done.
  unfold kickback_outcome. rewrite Hc.
  destruct (c >? maxRetries) eqn:Hgt; [apply Z.gtb_lt in Hgt; lia|].
  eexists. by repeat split.
Qed.

Lemma kickback_copies_metadata_witness :
  exists pub,
    fst (GetKickbackMessage 3 (sample_delivery None) []) = Return (pub, None)
    /\ Publishing.Priority pub = 4
    /\ Publishing.MessageId pub = "id-1"
    /\ Publishing.UserId pub = "".
Proof.
  destruct (kickback_copies_metadata 3 (sample_delivery None) [] ∅ 0
              ltac:(reflexivity) ltac:(reflexivity) ltac:(lia))
    as (pub & Hrun & _ & _ & _ & Hprio & _ & _ & _ & Hid & _ & _ & _ & Hu & _).
  exists pub. repeat split; assumption.
Defined.

(** X2.  A forwarded message keeps none of the priority, correlation id,
    reply-to, expiration, message id, timestamp, user id and app id of
    its source: [GetNextMessage] leaves all of them at their zero
    value. *)
Theorem next_message_drops_metadata {body_t : Type}
    (json_Marshal : body_t -> bytes + error) msg body raw h t :
  json_Marshal body = inl raw ->
  source_headers h msg = Some t ->
  exists pub,
    fst (GetNextMessage json_Marshal msg body h) = Return (pub, None)
    /\ Publishing.Priority pub = 0
    /\ Publishing.CorrelationId pub = ""
    /\ Publishing.ReplyTo pub = ""
    /\ Publishing.Expiration pub = ""
    /\ Publishing.MessageId pub = ""
    /\ Publishing.Timestamp pub = 0
    /\ Publishing.UserId pub = ""
    /\ Publishing.AppId pub = "".
Proof.
  intros Hm Ht. rewrite (GetNextMessage_run _ _ _ raw _ t) by done.
  eexists. by repeat split.
Qed.

Lemma next_message_drops_metadata_witness :
  exists pub,
    fst (GetNextMessage sample_Marshal (sample_delivery None) (Some [49]) [])
    = Return (pub, None)
    /\ Publishing.Priority pub = 0
    /\ Publishing.MessageId pub = "".
Proof.
  destruct (next_message_drops_metadata sample_Marshal (sample_delivery None)
              (Some [49]) [49] [] ∅ ltac:(reflexivity) ltac:(reflexivity))
    as (pub & Hrun & Hprio & _ & _ & _ & Hid & _).
  exists pub. repeat split; assumption.
Defined.

(** X3.  A kickback rejected for a delivery that carries a retry count
    changes nothing: the store is as before, so asking again, any number
    of times, is rejected again. *)
Theorem kickback_rejection_stable maxRetries msg h t c n :
  source_headers h msg = Some t ->
  t !! RetryCountHeader = Some (VInt64 c) ->
  c > maxRetries ->
  GetKickbackMessage maxRetries msg h
  = (Return (Publishing.zero, Some (errors_New "too many retries")), h)
  /\ kickback_chain maxRetries (S n) msg h
     = [Exhausted (errors_New "too many retries")].
Proof.
  intros Ht Hv Hgt.
  assert (Hc : current_count t = Some c)
    by (unfold current_count; by rewrite Hv).
  split; [|by apply (kickback_chain_exhausted _ _ _ _ t c)].
  rewrite (GetKickbackMessage_run _ _ _ t) by done.
  unfold kickback_outcome. rewrite Hc.
  rewrite (proj2 (Z.gtb_lt _ _)) by lia. f_equal.
  rewrite (insert_id t) by done.
  revert Ht. unfold source_headers, store_headers.
  destruct (Delivery.Headers msg) as [l|]; intros Ht.
  - by apply list_insert_id.
  - injection Ht as <-. by rewrite lookup_empty in Hv.
Qed.

Lemma kickback_rejection_stable_witness :
  GetKickbackMessage 2 (sample_delivery (Some 0%nat))
    [{[RetryCountHeader := VInt64 3]}]
  = (Return (Publishing.zero, Some (errors_New "too many retries")),
     [{[RetryCountHeader := VInt64 3]}])
  /\ kickback_chain 2 5 (sample_delivery (Some 0%nat))
       [{[RetryCountHeader := VInt64 3]}]
     = [Exhausted (errors_New "too many retries")].
Proof.
  apply (kickback_rejection_stable 2 (sample_delivery (Some 0%nat))
           [{[RetryCountHeader := VInt64 3]}]
           {[RetryCountHeader := VInt64 3]} 3 4);
    [reflexivity|reflexivity|lia].
Defined.

(** X4.  With a negative [maxRetries] the first kickback of a message
    that has no retry header is already rejected, and the rejected call
    has nevertheless written a retry count of 0: into the header mapping
    of the source when it has one, into a new map object otherwise. *)
Theorem kickback_rejection_initialises maxRetries msg h t :
  source_headers h msg = Some t ->
  t !! RetryCountHeader = None ->
  maxRetries < 0 ->
  fst (GetKickbackMessage maxRetries msg h)
  = Return (Publishing.zero, Some (errors_New "too many retries"))
  /\ snd (GetKickbackMessage maxRetries msg h) !! target h msg
     = Some (<[RetryCountHeader := VInt64 0]> t)
  /\ length (snd (GetKickbackMessage maxRetries msg h))
     = match Delivery.Headers msg with
       | None => S (length h)
       | Some _ => length h
       end.
Proof.
  intros Ht Hv Hneg.
  assert (Hc : current_count t = Some 0)
    by (unfold current_count; by rewrite Hv).
  rewrite (GetKickbackMessage_run _ _ _ t) by done.
  unfold kickback_outcome. rewrite Hc.
  rewrite (proj2 (Z.gtb_lt _ _)) by lia. simpl.
  split; [done|]. split; [by apply (store_headers_target _ _ t)|].
  unfold store_headers. destruct (Delivery.Headers msg).
  - apply length_insert.
  - rewrite length_app. simpl. lia.
Qed.

Lemma kickback_rejection_initialises_witness :
  fst (GetKickbackMessage (-1) (sample_delivery (Some 0%nat)) [∅])
  = Return (Publishing.zero, Some (errors_New "too many retries"))
  /\ snd (GetKickbackMessage (-1) (sample_delivery (Some 0%nat)) [∅])
       !! 0%nat
     = Some (<[RetryCountHeader := VInt64 0]> ∅)
  /\ length (snd (GetKickbackMessage (-1) (sample_delivery (Some 0%nat)) [∅]))
     = 1%nat.
Proof.
  apply (kickback_rejection_initialises (-1) (sample_delivery (Some 0%nat))
           [∅] ∅); [reflexivity|reflexivity|lia].
Defined.

Lemma kickback_accepted maxRetries msg h t c :
  source_headers h msg = Some t ->
  current_count t = Some c ->
  c <= maxRetries ->
  exists pub,
    GetKickbackMessage maxRetries msg h
    = (Return (pub, None),
       store_headers h msg (<[RetryCountHeader := VInt64 (Int64.add c 1)]> t))
    /\ Publishing.Headers pub = Some (target h msg)
    /\ Publishing.Body pub = Delivery.Body msg.
Proof.
  intros Ht Hc Hle. rewrite (GetKickbackMessage_run _ _ _ t) by done.
  unfold kickback_outcome. rewrite Hc.
  destruct (c >? maxRetries) eqn:Hgt; [apply Z.gtb_lt in Hgt; lia|].
  by eexists.
Qed.

Lemma retry_header_stored h msg t t' pub :
  source_headers h msg = Some t ->
  Publishing.Headers pub = Some (target h msg) ->
  retry_header (store_headers h msg t') pub = t' !! RetryCountHeader.
Proof.
  intros Ht Hpub. unfold retry_header, headers_of. rewrite Hpub.
  by rewrite (store_headers_target _ _ t).
Qed.

(** X5.  Two kickbacks of one and the same delivery that has headers are
    not independent: the second call starts from the count the first one
    wrote into the shared mapping, and the envelope the first call
    returned reads the second count afterwards, both envelopes referring
    to the same map object. *)
Theorem kickback_twice_shared maxRetries msg h l t c :
  Delivery.Headers msg = Some l ->
  h !! l = Some t ->
  current_count t = Some c ->
  c <= maxRetries ->
  Int64.add c 1 <= maxRetries ->
  exists pub1 h1 pub2 h2,
    GetKickbackMessage maxRetries msg h = (Return (pub1, None), h1)
    /\ GetKickbackMessage maxRetries msg h1 = (Return (pub2, None), h2)
    /\ retry_header h1 pub1 = Some (VInt64 (Int64.add c 1))
    /\ retry_header h2 pub2 = Some (VInt64 (Int64.add (Int64.add c 1) 1))
    /\ retry_header h2 pub1 = Some (VInt64 (Int64.add (Int64.add c 1) 1))
    /\ Publishing.Headers pub1 = Publishing.Headers pub2.
Proof.
  intros Hl Ht Hc Hle1 Hle2.
  assert (Hsrc : source_headers h msg = Some t)
    by (unfold source_headers; by rewrite Hl).
  destruct (kickback_accepted maxRetries msg h t c Hsrc Hc Hle1)
    as (pub1 & Hrun1 & Hhd1 & _).
  set (t1 := <[RetryCountHeader := VInt64 (Int64.add c 1)]> t) in *.
  set (h1 := store_headers h msg t1) in *.
  assert (Htg : target h1 msg = target h msg)
    by (unfold target; by rewrite Hl).
  assert (Hsrc1 : source_headers h1 msg = Some t1).
  { pose proof (store_headers_target h msg t t1 Hsrc) as Hst.
    unfold source_headers, target in *. by rewrite Hl in *. }
  assert (Hc1 : current_count t1 = Some (Int64.add c 1)).
  { unfold current_count, t1. by rewrite lookup_insert_eq. }
  destruct (kickback_accepted maxRetries msg h1 t1 _ Hsrc1 Hc1 Hle2)
    as (pub2 & Hrun2 & Hhd2 & _).
  eexists pub1, h1, pub2, _. split; [done|]. split; [exact Hrun2|].
  rewrite Htg in Hhd2. repeat split.
  - unfold h1. rewrite (retry_header_stored _ _ t) by done.
    apply lookup_insert_eq.
  - rewrite (retry_header_stored _ _ t1) by (by rewrite ?Htg).
    apply lookup_insert_eq.
  - rewrite (retry_header_stored _ _ t1) by (by rewrite ?Htg).
    apply lookup_insert_eq.
  - congruence.
Qed.

Lemma kickback_twice_shared_witness :
  exists pub1 h1 pub2 h2,
    GetKickbackMessage 5 (sample_delivery (Some 0%nat))
      [{[RetryCountHeader := VInt64 1]}] = (Return (pub1, None), h1)
    /\ GetKickbackMessage 5 (sample_delivery (Some 0%nat)) h1
       = (Return (pub2, None), h2)
    /\ retry_header h1 pub1 = Some (VInt64 (Int64.add 1 1))
    /\ retry_header h2 pub2 = Some (VInt64 (Int64.add (Int64.add 1 1) 1))
    /\ retry_header h2 pub1 = Some (VInt64 (Int64.add (Int64.add 1 1) 1))
    /\ Publishing.Headers pub1 = Publishing.Headers pub2.
Proof.
  apply (kickback_twice_shared 5 (sample_delivery (Some 0%nat))
           [{[RetryCountHeader := VInt64 1]}] 0%nat
           {[RetryCountHeader := VInt64 1]} 1);
    first [reflexivity | vm_compute; discriminate].
Defined.

(** X6.  Two kickbacks of one and the same delivery without headers are
    independent: each call makes a map object of its own, both envelopes
    get the retry count 1, and the first envelope still reads 1 after
    the second call. *)
Theorem kickback_twice_fresh maxRetries msg h :
  Delivery.Headers msg = None ->
  0 <= maxRetries ->
  exists pub1 h1 pub2 h2,
    GetKickbackMessage maxRetries msg h = (Return (pub1, None), h1)
    /\ GetKickbackMessage maxRetries msg h1 = (Return (pub2, None), h2)
    /\ Publishing.Headers pub1 <> Publishing.Headers pub2
    /\ retry_header h1 pub1 = Some (VInt64 1)
    /\ retry_header h2 pub2 = Some (VInt64 1)
    /\ retry_header h2 pub1 = Some (VInt64 1).
Proof.
  intros Hnil Hmax.
  assert (Hsrc : forall h0, source_headers h0 msg = Some ∅)
    by (intros h0; unfold source_headers; by rewrite Hnil).
  assert (Hc : current_count ∅ = Some 0) by done.
  destruct (kickback_accepted maxRetries msg h ∅ 0 (Hsrc h) Hc Hmax)
    as (pub1 & Hrun1 & Hhd1 & _).
  set (h1 := store_headers h msg _) in *.
  destruct (kickback_accepted maxRetries msg h1 ∅ 0 (Hsrc h1) Hc Hmax)
    as (pub2 & Hrun2 & Hhd2 & _).
  eexists pub1, h1, pub2, _. split; [done|]. split; [exact Hrun2|].
  assert (Hlen : length h1 = S (length h)).
  { unfold h1, store_headers. rewrite Hnil, length_app. simpl. lia. }
  unfold target in Hhd1, Hhd2. rewrite Hnil in Hhd1, Hhd2.
  split; [rewrite Hhd1, Hhd2, Hlen; intros [=]; lia|].
  assert (H1 : retry_header h1 pub1 = Some (VInt64 1)).
  { unfold retry_header, headers_of, h1, store_headers.
    rewrite Hhd1, Hnil. by rewrite lookup_app_r, Nat.sub_diag by lia. }
  split; [done|]. split.
  - unfold retry_header, headers_of, store_headers.
    rewrite Hhd2, Hnil. by rewrite lookup_app_r, Nat.sub_diag by lia.
  - revert H1. unfold retry_header, headers_of, store_headers.
    rewrite Hhd1, Hnil. intros H1.
    rewrite lookup_app_l by (rewrite Hlen; lia). exact H1.
Qed.

Lemma kickback_twice_fresh_witness :
  exists pub1 h1 pub2 h2,
    GetKickbackMessage 0 (sample_delivery None) [] = (Return (pub1, None), h1)
    /\ GetKickbackMessage 0 (sample_delivery None) h1
       = (Return (pub2, None), h2)
    /\ Publishing.Headers pub1 <> Publishing.Headers pub2
    /\ retry_header h1 pub1 = Some (VInt64 1)
    /\ retry_header h2 pub2 = Some (VInt64 1)
    /\ retry_header h2 pub1 = Some (VInt64 1).
Proof.
  apply (kickback_twice_fresh 0 (sample_delivery None) []);
    [reflexivity|lia].
Defined.

(** X7.  Forwarding repairs and resets the retry accounting: whatever
    the retry header of the source held, even a value that is not an
    [int64], a kickback of the redelivered output of [GetNextMessage]
    is accepted under any non-negative [maxRetries], yields the retry
    count 1 and carries the new body. *)
Theorem forward_then_kickback {body_t : Type}
    (json_Marshal : body_t -> bytes + error) maxRetries msg body raw h t :
  json_Marshal body = inl raw ->
  source_headers h msg = Some t ->
  0 <= maxRetries ->
  exists pub h1 pub' h2,
    GetNextMessage json_Marshal msg body h = (Return (pub, None), h1)
    /\ GetKickbackMessage maxRetries (redeliver msg pub) h1
       = (Return (pub', None), h2)
    /\ retry_header h2 pub' = Some (VInt64 1)
    /\ Publishing.Body pub' = raw.
Proof.
  intros Hm Ht Hmax. rewrite (GetNextMessage_run _ _ _ raw _ t) by done.
  set (t0 := <[RetryCountHeader := VInt64 0]> t).
  set (h1 := store_headers h msg t0).
  set (pub := Publishing.mk _ _ _ _ _ _ _ _ _ _ _ _ _ _).
  assert (Hsrc : source_headers h1 (redeliver msg pub) = Some t0).
  { unfold source_headers. simpl. by apply (store_headers_target _ _ t). }
  assert (Hc : current_count t0 = Some 0).
  { unfold current_count, t0. by rewrite lookup_insert_eq. }
  destruct (kickback_accepted maxRetries _ h1 t0 0 Hsrc Hc Hmax)
    as (pub' & Hrun & Hhd & Hbody).
  eexists pub, h1, pub', _. split; [done|]. split; [exact Hrun|]. split.
  - rewrite (retry_header_stored _ _ t0) by done. apply lookup_insert_eq.
  - by rewrite Hbody.
Qed.

Lemma forward_then_kickback_witness :
  exists pub h1 pub' h2,
    GetNextMessage sample_Marshal (sample_delivery (Some 0%nat)) (Some [49])
      [{[RetryCountHeader := VString "many"]}] = (Return (pub, None), h1)
    /\ GetKickbackMessage 0 (redeliver (sample_delivery (Some 0%nat)) pub) h1
       = (Return (pub', None), h2)
    /\ retry_header h2 pub' = Some (VInt64 1)
    /\ Publishing.Body pub' = [49].
Proof.
  apply (forward_then_kickback sample_Marshal 0 (sample_delivery (Some 0%nat))
           (Some [49]) [49] [{[RetryCountHeader := VString "many"]}]
           {[RetryCountHeader := VString "many"]});
    [reflexivity|reflexivity|lia].
Defined.

(** X8.  A message made by [CreateMessage] and delivered can be kicked
    back under any non-negative [maxRetries]; the first kickback yields
    the retry count 1 and carries the serialized body. *)
Theorem create_then_kickback {body_t : Type}
    (json_Marshal : body_t -> bytes + error) maxRetries base body raw h :
  json_Marshal body = inl raw ->
  0 <= maxRetries ->
  exists pub h1 pub' h2,
    CreateMessage json_Marshal body h = (Return (pub, None), h1)
    /\ GetKickbackMessage maxRetries (redeliver base pub) h1
       = (Return (pub', None), h2)
    /\ retry_header h2 pub' = Some (VInt64 1)
    /\ Publishing.Body pub' = raw.
Proof.
  intros Hm Hmax. rewrite (CreateMessage_run _ _ raw) by done.
  set (t0 := {[RetryCountHeader := VInt64 0]} : Table).
  set (pub := Publishing.mk _ _ _ _ _ _ _ _ _ _ _ _ _ _).
  assert (Hsrc : source_headers (h ++ [t0]) (redeliver base pub) = Some t0).
  { unfold source_headers. simpl.
    by rewrite lookup_app_r, Nat.sub_diag by lia. }
  assert (Hc : current_count t0 = Some 0) by done.
  destruct (kickback_accepted maxRetries _ _ t0 0 Hsrc Hc Hmax)
    as (pub' & Hrun & Hhd & Hbody).
  eexists pub, _, pub', _. split; [done|]. split; [exact Hrun|]. split.
  - rewrite (retry_header_stored _ _ t0) by done. apply lookup_insert_eq.
  - by rewrite Hbody.
Qed.

Lemma create_then_kickback_witness :
  exists pub h1 pub' h2,
    CreateMessage sample_Marshal (Some [49]) [] = (Return (pub, None), h1)
    /\ GetKickbackMessage 0 (redeliver (sample_delivery None) pub) h1
       = (Return (pub', None), h2)
    /\ retry_header h2 pub' = Some (VInt64 1)
    /\ Publishing.Body pub' = [49].
Proof.
  apply (create_then_kickback sample_Marshal 0 (sample_delivery None)
           (Some [49]) [49] []); [reflexivity|lia].
Defined.

(** X9.  A delivery whose retry count is [c] can be kicked back exactly
    [maxRetries + 1 - c] more times: that many calls of the chain
    succeed, with the counts [c + 1], ..., [maxRetries + 1], and the
    next one is rejected. *)
Theorem kickback_budget maxRetries msg h t c :
  0 <= c <= maxRetries + 1 ->
  maxRetries < Int64.max ->
  source_headers h msg = Some t ->
  current_count t = Some c ->
  kickback_chain maxRetries (S (Z.to_nat (maxRetries + 1 - c))) msg h
  = counts (c + 1) (Z.to_nat (maxRetries + 1 - c))
      ++ [Exhausted (errors_New "too many retries")].
Proof.
  intros Hc Hmax Ht Hcount.
  apply (kickback_chain_from _ _ _ _ t c); [lia|lia|done..].
Qed.

Lemma kickback_budget_witness :
  kickback_chain 3 3 (sample_delivery (Some 0%nat))
    [{[RetryCountHeader := VInt64 2]}]
  = [Kicked (Some (VInt64 3)); Kicked (Some (VInt64 4));
     Exhausted (errors_New "too many retries")].
Proof.
  apply (kickback_budget 3 (sample_delivery (Some 0%nat))
           [{[RetryCountHeader := VInt64 2]}]
           {[RetryCountHeader := VInt64 2]} 2);
    first [reflexivity | unfold Int64.max; lia].
Defined.

(** * Further properties of the uniqueness validator *)

Lemma unique_loop_verdict log confs :
  fst (unique_loop confs confs 0 ∅ log) = Return tt
  <-> NoDup (config.QueueName <$> confs).
Proof.
  rewrite (unique_loop_spec confs log confs [] ∅).
  - simpl. by case_decide.
  - apply NoDup_nil_2.
  - intros name. rewrite lookup_empty. simpl. split.
    + by intros [? ?].
    + intros Hin. by apply elem_of_nil in Hin.
  - done.
Qed.

(** X10.  The verdict of [AssertUniqueQueues] depends only on which
    queue names occur how often: two sequences of configurations whose
    queue names are the same up to order get the same verdict, whatever
    their other settings and whatever had been logged. *)
Theorem assert_unique_names_only log log' confs confs' :
  config.QueueName <$> confs ≡ₚ config.QueueName <$> confs' ->
  (fst (AssertUniqueQueues log confs) = Return tt
   <-> fst (AssertUniqueQueues log' confs') = Return tt).
Proof.
  intros Hperm. unfold AssertUniqueQueues.
  rewrite !unique_loop_verdict. by rewrite Hperm.
Qed.

Lemma assert_unique_names_only_witness :
  fst (AssertUniqueQueues []
         [sample_conf "a" "x"; sample_conf "b" ""; sample_conf "a" "y"])
  = Return tt
  <-> fst (AssertUniqueQueues [LogPanic "earlier"]
             [sample_conf "b" "z"; sample_conf "a" ""; sample_conf "a" ""])
      = Return tt.
Proof.
  apply (assert_unique_names_only [] [LogPanic "earlier"]
           [sample_conf "a" "x"; sample_conf "b" ""; sample_conf "a" "y"]
           [sample_conf "b" "z"; sample_conf "a" ""; sample_conf "a" ""]).
  simpl. apply perm_swap.
Defined.

(** X11.  Two batches pass together exactly when each passes on its own
    and they share no queue name. *)
Theorem assert_unique_app log confs1 confs2 :
  fst (AssertUniqueQueues log (confs1 ++ confs2)) = Return tt
  <-> fst (AssertUniqueQueues log confs1) = Return tt
      /\ fst (AssertUniqueQueues log confs2) = Return tt
      /\ forall name, name ∈ config.QueueName <$> confs1 ->
                      name ∉ config.QueueName <$> confs2.
Proof.
  unfold AssertUniqueQueues. rewrite !unique_loop_verdict, fmap_app.
  rewrite NoDup_app. tauto.
Qed.

(** * Further properties of the bootstrapper *)

Lemma done_calls_submseteq (gs : list goroutine) :
  concat (done_calls <$> gs) ⊆+ concat (calls_of <$> (prog <$> gs)).
Proof.
  induction gs as [|g gs IH]; csimpl; [done|].
  apply submseteq_app; [|done].
  unfold done_calls, calls_of.
  rewrite <- (take_drop (pc g) (prog g)) at 2. rewrite omap_app.
  by apply submseteq_inserts_r.
Qed.

(** The calls made so far are among the calls of the programs of the
    batch, each made no more often than it occurs there. *)
Lemma trace_within_programs F log0 s :
  inv F log0 s ->
  trace s ⊆+ concat (calls_of <$> spawned_progs F (iterations F)).
Proof.
  intros [Hsp Hprogs _ Htr _ _]. rewrite Htr.
  etrans; [apply done_calls_submseteq|]. rewrite Hprogs.
  destruct (spawned_progs_prefix F (spawned s) Hsp) as [rest ->].
  rewrite fmap_app, concat_app. by apply submseteq_inserts_r.
Qed.

Lemma creation_calls_S n :
  creation_calls (S n)
  = creation_calls n ++ [CallCreateQueue n; CallCreateExchange n].
Proof.
  unfold creation_calls. by rewrite seq_S, fmap_app, concat_app.
Qed.

Lemma elem_of_creation_calls n c :
  c ∈ creation_calls n ->
  exists i, (i < n)%nat /\ (c = CallCreateQueue i \/ c = CallCreateExchange i).
Proof.
  induction n as [|n IH]; [by intros ?%elem_of_nil|].
  rewrite creation_calls_S, elem_of_app. intros [Hin|Hin].
  - destruct (IH Hin) as (i & Hi & Hc). exists i. split; [lia|done].
  - exists n. split; [lia|].
    apply elem_of_cons in Hin as [->|Hin]; [by left|].
    apply list_elem_of_singleton in Hin as ->. by right.
Qed.

Lemma NoDup_creation_calls n : NoDup (creation_calls n).
Proof.
  induction n as [|n IH]; [apply NoDup_nil_2|].
  rewrite creation_calls_S. apply NoDup_app. split; [done|]. split.
  - intros c Hc Hin. apply elem_of_creation_calls in Hc as (i & Hi & Hc).
    apply elem_of_cons in Hin as [->|Hin].
    + destruct Hc as [[= ->]|[=]]. lia.
    + apply list_elem_of_singleton in Hin as ->.
      destruct Hc as [[=]|[= ->]]. lia.
  - apply NoDup_cons. split; [|apply NoDup_singleton].
    intros Hin. by apply list_elem_of_singleton in Hin.
Qed.

(** X12.  At every moment of every run of [TryCreateQueues], not only
    when the caller returns, the calls made so far are creation calls of
    services of the batch and none has been made twice. *)
Theorem create_calls_at_most_once queues log0 acts s :
  exec (TryCreateQueues queues) acts (init log0) = Some s ->
  trace s ⊆+ creation_calls (length queues) /\ NoDup (trace s).
Proof.
  intros Hexec.
  pose proof (trace_within_programs _ log0 s
                (inv_exec _ log0 _ _ _ (inv_init _ log0) Hexec)) as Hsub.
  simpl in Hsub. rewrite create_progs_calls in Hsub. split; [done|].
  apply submseteq_Permutation in Hsub as [k Hk].
  pose proof (NoDup_creation_calls (length queues)) as Hnd.
  rewrite Hk in Hnd. by apply NoDup_app in Hnd as [? _].
Qed.

Lemma create_calls_at_most_once_witness :
  exists s,
    exec (TryCreateQueues [sample_service "a" "x"; sample_service "b" ""])
      [Spawn; Run 1%nat; Run 0%nat; Spawn; Run 3%nat] (init []) = Some s
    /\ returned s = false
    /\ trace s ⊆+ creation_calls 2 /\ NoDup (trace s).
Proof.
  eexists. split; [vm_compute; reflexivity|]. split; [reflexivity|].
  apply (create_calls_at_most_once
           [sample_service "a" "x"; sample_service "b" ""] []
           [Spawn; Run 1%nat; Run 0%nat; Spawn; Run 3%nat]).
  vm_compute; reflexivity.
Defined.

Lemma create_quiescent queues log0 acts s a :
  exec (TryCreateQueues queues) acts (init log0) = Some s ->
  returned s = true ->
  step (TryCreateQueues queues) a s = None.
Proof.
  intros Hexec Hret.
  destruct (create_joined queues log0 acts s Hexec Hret)
    as (_ & _ & _ & Hdone & _).
  destruct a as [|g|]; simpl.
  - rewrite decide_False; [done|]. intros [Hnr _]. congruence.
  - destruct (goroutines s !! g) as [gr|] eqn:Hg; [|done].
    pose proof (proj1 (Forall_lookup _ _) Hdone g gr Hg) as Hc.
    unfold completed in Hc. by rewrite lookup_ge_None_2 by lia.
  - rewrite decide_False; [done|]. intros [Hnr _]. congruence.
Qed.

(** X13.  Once [TryCreateQueues] has returned nothing of it is left
    running: a run cannot be continued past the return, so no creation
    call is made and nothing is logged afterwards. *)
Theorem create_quiescent_after_return queues log0 acts s acts' s' :
  exec (TryCreateQueues queues) acts (init log0) = Some s ->
  returned s = true ->
  exec (TryCreateQueues queues) acts' s = Some s' ->
  acts' = [] /\ s' = s.
Proof.
  intros Hexec Hret Hmore. destruct acts' as [|a acts']; simpl in Hmore.
  - by injection Hmore as <-.
  - by rewrite (create_quiescent queues log0 acts) in Hmore.
Qed.

Lemma create_quiescent_after_return_witness :
  exists s,
    exec (TryCreateQueues [sample_service "a" "x"])
      [Spawn; Run 0%nat; Run 0%nat; Run 1%nat; Run 1%nat; Finish] (init [])
    = Some s
    /\ returned s = true
    /\ exec (TryCreateQueues [sample_service "a" "x"]) [Run 0%nat] s = None
    /\ (@nil action = [] /\ s = s).
Proof.
  eexists. split; [vm_compute; reflexivity|]. split; [reflexivity|].
  split; [reflexivity|].
  apply (create_quiescent_after_return [sample_service "a" "x"] []
           [Spawn; Run 0%nat; Run 0%nat; Run 1%nat; Run 1%nat; Finish]);
    first [reflexivity | vm_compute; reflexivity].
Defined.

(** *** The calls of a batch of bindings *)

Lemma bind_progs_calls queues :
  concat (calls_of <$> spawned_progs (BindQueuesToExchange queues)
                         (length queues))
  = binding_calls queues.
Proof. by rewrite bind_progs, fmap_imap. Qed.

Lemma elem_of_concat {A} (x : A) (ls : list (list A)) :
  x ∈ concat ls <-> exists l, x ∈ l /\ l ∈ ls.
Proof.
  induction ls as [|l0 ls IH]; simpl.
  - split; [by intros ?%elem_of_nil|]. by intros (l & _ & ?%elem_of_nil).
  - rewrite elem_of_app, IH. split.
    + intros [Hx|(l & Hx & Hl)].
      * exists l0. split; [done|]. apply elem_of_cons. by left.
      * exists l. split; [done|]. apply elem_of_cons. by right.
    + intros (l & Hx & Hl). apply elem_of_cons in Hl as [->|Hl].
      * by left.
      * right. by exists l.
Qed.

Lemma elem_of_binding_calls c queues :
  c ∈ binding_calls queues <->
  exists (j : nat) q, queues !! j = Some q /\ c ∈ calls_of (bind_task j q).
Proof.
  unfold binding_calls. rewrite elem_of_concat. split.
  - intros (l & Hc & Hl). apply list_elem_of_lookup in Hl as [j Hj].
    apply list_lookup_imap_Some in Hj as (q & Hq & ->). by exists j, q.
  - intros (j & q & Hq & Hc). exists (calls_of (bind_task j q)).
    split; [done|]. apply list_elem_of_lookup. exists j.
    by rewrite list_lookup_imap, Hq.
Qed.

Lemma bind_task_calls j q c :
  c ∈ calls_of (bind_task j q) ->
  call_service c = j /\ is_creation c = false.
Proof.
  unfold bind_task. destruct (Channel q) as [ch|err]; [case_decide|];
    simpl; intros Hc;
    repeat (apply elem_of_cons in Hc as [->|Hc]; [done|]);
    by apply elem_of_nil in Hc.
Qed.

Lemma bind_trace_within queues log0 s :
  inv (BindQueuesToExchange queues) log0 s ->
  trace s ⊆+ binding_calls queues.
Proof.
  intros Hinv. rewrite <- bind_progs_calls.
  apply (trace_within_programs _ log0 s Hinv).
Qed.

(** What holds when [BindQueuesToExchange] has returned: there is one
    goroutine per service, each has sent its report, and the reports
    are what was received and logged. *)
Lemma bind_joined queues log0 s :
  inv (BindQueuesToExchange queues) log0 s ->
  returned s = true ->
  prog <$> goroutines s = imap bind_task queues
  /\ Forall (fun g => done_sends g = sends_of (prog g)) (goroutines s)
  /\ exists sent,
       sent ≡ₚ concat (imap bind_report queues)
       /\ log s = log0 ++ (sent ≫= log_failure).
Proof.
  intros [_ Hprogs Hpc Htr (sent & Hsent & Hrecv & Hlog) Hfin] Hret.
  destruct (Hfin Hret) as [Hsp Hall]. simpl in Hsp, Hall.
  rewrite Hsp, bind_progs in Hprogs.
  pose proof (bind_goroutines _ _ Hprogs) as Hgs.
  assert (Hlen : length (goroutines s) = length queues).
  { by rewrite <- (length_fmap prog), Hprogs, length_imap. }
  assert (Hone : Forall (fun g => done_sends g = sends_of (prog g))
                   (goroutines s)).
  { assert (Hle : Forall (fun g => (length (done_sends g) <= 1)%nat)
                    (goroutines s)).
    { apply Forall_lookup. intros j g Hj.
      destruct (Hgs j g Hj) as (q' & _ & Hg).
      pose proof (done_sends_prefix g) as Hp.
      by rewrite Hg, bind_task_one_send in Hp. }
    pose proof (sends_all _ Hle) as Hsent1.
    rewrite <- Hsent, <- Hrecv, Hall, Hlen in Hsent1.
    specialize (Hsent1 eq_refl).
    apply Forall_lookup. intros j g Hj.
    destruct (Hgs j g Hj) as (q' & _ & Hg).
    apply done_sends_all. rewrite Hg, bind_task_one_send.
    by apply (proj1 (Forall_lookup _ _) Hsent1 j). }
  split; [done|]. split; [done|].
  exists sent. split; [|done]. rewrite Hsent.
  replace (imap bind_report queues) with (done_sends <$> goroutines s);
    [done|].
  apply list_eq. intros j. rewrite list_lookup_fmap, list_lookup_imap.
  destruct (goroutines s !! j) as [g'|] eqn:Hg'; simpl.
  - destruct (Hgs j g' Hg') as (qj & Hqj & Hpj). rewrite Hqj. simpl.
    f_equal. unfold bind_report. rewrite <- Hpj.
    by apply (proj1 (Forall_lookup _ _) Hone j).
  - apply lookup_ge_None in Hg'. rewrite Hlen in Hg'.
    by rewrite lookup_ge_None_2.
Qed.

(** X14.  For a service whose [Channel()] fails, [BindQueuesToExchange]
    never does anything but that one call: no configuration is read, no
    bind is attempted and nothing is closed for it, at any moment of any
    run; and when the caller has returned the call has been made and its
    error has been logged. *)
Theorem bind_failed_channel queues log0 acts s i q err :
  exec (BindQueuesToExchange queues) acts (init log0) = Some s ->
  queues !! i = Some q ->
  Channel q = inr err ->
  (forall c, c ∈ trace s -> call_service c = i -> c = CallChannel i)
  /\ (returned s = true ->
      CallChannel i ∈ trace s
      /\ LogDebug [("err", err)] "failed to create a queue or exchange"
         ∈ log s).
Proof.
  intros Hexec Hq Hch.
  pose proof (inv_exec _ log0 _ _ _ (inv_init _ log0) Hexec) as Hinv.
  split.
  - intros c Hc Hi.
    pose proof (elem_of_submseteq _ _ _ Hc (bind_trace_within _ _ _ Hinv))
      as Hin.
    apply elem_of_binding_calls in Hin as (j & qj & Hqj & Hin).
    destruct (bind_task_calls _ _ _ Hin) as [Hj _].
    assert (j = i) as -> by congruence.
    assert (qj = q) as -> by congruence.
    unfold bind_task in Hin. rewrite Hch in Hin. simpl in Hin.
    apply list_elem_of_singleton in Hin. done.
  - intros Hret.
    destruct (bind_joined _ _ _ Hinv Hret)
      as (Hprogs & Hone & sent & Hsent & Hlog).
    destruct Hinv as [_ _ _ Htr _ _].
    destruct (lookup_lt_is_Some_2 (goroutines s) i) as [g Hg].
    { rewrite <- (length_fmap prog), Hprogs, length_imap.
      by eapply lookup_lt_Some. }
    destruct (bind_goroutines _ _ Hprogs i g Hg) as (q' & Hq' & Hprog).
    assert (q' = q) as -> by congruence.
    pose proof (proj1 (Forall_lookup _ _) Hone i g Hg) as Hsentg.
    simpl in Hsentg. split.
    + rewrite Htr. apply elem_of_concat. exists (done_calls g).
      split; [|apply list_elem_of_fmap_2, list_elem_of_lookup; eauto].
      revert Hsentg. unfold done_sends, done_calls. rewrite Hprog.
      unfold bind_task. rewrite Hch.
      destruct (pc g) as [|[|k]]; simpl; try done.
      intros _. apply elem_of_cons. by left.
    + rewrite Hlog. apply elem_of_app. right.
      apply list_elem_of_bind. exists (Some err). split.
      * simpl. apply elem_of_cons. by left.
      * rewrite Hsent. apply elem_of_concat.
        exists (bind_report i q). split.
        -- unfold bind_report, bind_task. rewrite Hch. simpl.
           apply elem_of_cons. by left.
        -- apply list_elem_of_lookup. exists i.
           by rewrite list_lookup_imap, Hq.
Qed.

Lemma bind_failed_channel_witness :
  exists s,
    exec (BindQueuesToExchange
            [sample_service "jobs" "work"; failing_channel_service])
      [Spawn; Spawn; Run 1%nat; Run 0%nat; Run 1%nat] (init []) = Some s
    /\ (forall c, c ∈ trace s -> call_service c = 1%nat -> c = CallChannel 1).
Proof.
  eexists. split; [vm_compute; reflexivity|].
  apply (bind_failed_channel
           [sample_service "jobs" "work"; failing_channel_service] []
           [Spawn; Spawn; Run 1%nat; Run 0%nat; Run 1%nat] _ 1%nat
           failing_channel_service (errors_New "channel closed"));
    first [reflexivity | vm_compute; reflexivity].
Defined.

(** *** Running the goroutines to their end *)

Lemma exec_app F acts1 : forall acts2 s s1 s2,
  exec F acts1 s = Some s1 ->
  exec F acts2 s1 = Some s2 ->
  exec F (acts1 ++ acts2) s = Some s2.
Proof.
  induction acts1 as [|a acts1 IH]; intros acts2 s s1 s2 H1 H2; simpl in *.
  - by injection H1 as ->.
  - destruct (step F a s) as [s'|]; [|done]. by apply (IH _ _ s1).
Qed.

(** After the return every goroutine has sent its value, so what is
    left of its program are calls, and those can always be made. *)
Lemma finish_step F log0 s :
  balanced F -> inv F log0 s -> returned s = true ->
  ~ Forall completed (goroutines s) ->
  exists a s', step F a s = Some s' /\ returned s' = true.
Proof.
  intros [Hone Hexp] Hinv Hret Hnot.
  apply not_Forall_Exists in Hnot; [|apply _]. apply Exists_exists in Hnot.
  destruct Hnot as (g & Hg & Hgc).
  apply list_elem_of_lookup in Hg. destruct Hg as [i Hi].
  destruct Hinv as [_ Hprogs Hpc _ (sent & Hsent & Hrecv & _) Hfin].
  destruct (Hfin Hret) as [Hsp Hrcv]. rewrite Hsp in Hprogs.
  assert (Hlt : (pc g < length (prog g))%nat).
  { pose proof (proj1 (Forall_lookup _ _) Hpc i g Hi) as Hle.
    unfold completed in Hgc. simpl in *. lia. }
  destruct (lookup_lt_is_Some_2 _ _ Hlt) as [ins Hins].
  destruct ins as [c|e].
  - exists (Run i). eexists. simpl. rewrite Hi, Hins. by split.
  - exfalso.
    assert (Hsends : Forall (fun g => length (sends_of (prog g)) = 1%nat)
                       (goroutines s)).
    { apply (Forall_fmap prog (fun p => length (sends_of p) = 1%nat)).
      by rewrite Hprogs. }
    assert (Hle : Forall (fun g => (length (done_sends g) <= 1)%nat)
                    (goroutines s)).
    { eapply Forall_impl; [exact Hsends|]. intros g' Hg'. simpl in Hg'.
      pose proof (done_sends_prefix g'). lia. }
    pose proof (sends_all _ Hle) as Hall1.
    rewrite <- Hsent, <- Hrecv, Hrcv, Hexp, <- Hprogs, length_fmap in Hall1.
    specialize (Hall1 eq_refl).
    pose proof (proj1 (Forall_lookup _ _) Hall1 i g Hi) as H1.
    pose proof (proj1 (Forall_lookup _ _) Hsends i g Hi) as H2.
    simpl in H1, H2. revert H1 H2. unfold done_sends, sends_of.
    rewrite <- (take_drop (pc g) (prog g)) at 2.
    rewrite omap_app, length_app, (drop_S _ _ _ Hins). simpl. lia.
Qed.

Lemma fanout_finishes F log0 : balanced F -> forall n s,
  inv F log0 s ->
  returned s = true ->
  (steps_total F - steps_taken s <= n)%nat ->
  exists acts s',
    exec F acts s = Some s' /\ returned s' = true
    /\ Forall completed (goroutines s').
Proof.
  intros Hbal n. induction n as [|n IH]; intros s Hinv Hret Hn.
  - destruct (decide (Forall completed (goroutines s))) as [Hall|Hnot];
      [by exists [], s|].
    destruct (finish_step F log0 s Hbal Hinv Hret Hnot)
      as (a & s1 & Hstep & _).
    pose proof (steps_taken_step _ _ _ _ Hstep).
    pose proof (steps_taken_bounded F log0 s1 (inv_step _ _ _ _ _ Hinv Hstep)).
    lia.
  - destruct (decide (Forall completed (goroutines s))) as [Hall|Hnot];
      [by exists [], s|].
    destruct (finish_step F log0 s Hbal Hinv Hret Hnot)
      as (a & s1 & Hstep & Hret1).
    pose proof (steps_taken_step _ _ _ _ Hstep).
    destruct (IH s1) as (acts & s' & Hexec & Hs').
    + by apply (inv_step F log0 a s).
    + done.
    + lia.
    + exists (a :: acts), s'. split; [|done]. simpl. by rewrite Hstep.
Qed.

Lemma bind_task_close_other i j q :
  j <> i -> filter (is_close_of j) (calls_of (bind_task i q)) = [].
Proof.
  intros Hne. unfold bind_task.
  destruct (Channel q) as [ch|err]; [case_decide|]; simpl; by filter_calls.
Qed.

Lemma bind_task_close_own i q :
  filter (is_close_of i) (calls_of (bind_task i q))
  = match Channel q with
    | inl _ => [CallClose i]
    | inr _ => []
    end.
Proof.
  unfold bind_task.
  destruct (Channel q) as [ch|err]; [case_decide|]; simpl; by filter_calls.
Qed.

(** X15.  Every run of [BindQueuesToExchange] can be continued until all
    its goroutines have run to their end, and then the calls made are
    exactly those of the goroutines' programs; in particular every
    channel that was acquired has been closed exactly once, and nothing
    was closed for a service whose channel could not be acquired. *)
Theorem bind_closes_each_channel_once queues log0 acts s :
  exec (BindQueuesToExchange queues) acts (init log0) = Some s ->
  (exists acts' s',
     exec (BindQueuesToExchange queues) acts' s = Some s'
     /\ returned s' = true /\ Forall completed (goroutines s'))
  /\ (returned s = true -> Forall completed (goroutines s) ->
      trace s ≡ₚ binding_calls queues
      /\ forall (i : nat) q, queues !! i = Some q ->
           filter (is_close_of i) (trace s)
           = match Channel q with
             | inl _ => [CallClose i]
             | inr _ => []
             end).
Proof.
  intros Hexec.
  pose proof (inv_exec _ log0 _ _ _ (inv_init _ log0) Hexec) as Hinv.
  split.
  - destruct (fanout_completes _ log0 (bind_balanced queues)
                (steps_total (BindQueuesToExchange queues)) s Hinv)
      as (acts1 & s1 & Hexec1 & Hret1); [lia|].
    pose proof (inv_exec _ log0 _ _ _ Hinv Hexec1) as Hinv1.
    destruct (fanout_finishes _ log0 (bind_balanced queues)
                (steps_total (BindQueuesToExchange queues)) s1 Hinv1 Hret1)
      as (acts2 & s2 & Hexec2 & Hret2 & Hdone); [lia|].
    exists (acts1 ++ acts2), s2. split; [|done].
    by apply (exec_app _ _ _ _ s1).
  - intros Hret Hdone.
    destruct (bind_joined _ _ _ Hinv Hret) as (Hprogs & _).
    destruct Hinv as [_ _ _ Htr _ _].
    destruct (completed_calls _ Hdone) as [Hcalls _].
    assert (Hall : trace s ≡ₚ binding_calls queues).
    { rewrite Htr, Hcalls, Hprogs. unfold binding_calls.
      by rewrite fmap_imap. }
    split; [done|]. intros i q Hq.
    assert (Hperm : filter (is_close_of i) (trace s)
                    ≡ₚ filter (is_close_of i) (calls_of (bind_task i q))).
    { rewrite Hall. unfold binding_calls.
      rewrite (filter_concat_single _ _ i (calls_of (bind_task i q)));
        [done| |].
      - by rewrite list_lookup_imap, Hq.
      - intros j l Hne Hj.
        apply list_lookup_imap_Some in Hj as (qj & _ & ->).
        by apply bind_task_close_other. }
    rewrite bind_task_close_own in Hperm.
    destruct (Channel q).
    + by apply Permutation_singleton_r.
    + by apply Permutation_nil_r.
Qed.

Lemma bind_closes_each_channel_once_witness :
  exists s,
    exec (BindQueuesToExchange
            [sample_service "jobs" "work"; failing_channel_service])
      [Spawn; Spawn; Run 1%nat; Run 0%nat; Run 1%nat; Run 0%nat; Run 0%nat;
       Run 0%nat; Finish; Run 0%nat] (init []) = Some s
    /\ returned s = true
    /\ filter (is_close_of 0) (trace s) = [CallClose 0]
    /\ filter (is_close_of 1) (trace s) = [].
Proof.
  eexists. split; [vm_compute; reflexivity|]. split; [reflexivity|].
  destruct (proj2 (bind_closes_each_channel_once
              [sample_service "jobs" "work"; failing_channel_service] []
              [Spawn; Spawn; Run 1%nat; Run 0%nat; Run 1%nat; Run 0%nat;
               Run 0%nat; Run 0%nat; Finish; Run 0%nat]
              _ ltac:(vm_compute; reflexivity)) ltac:(reflexivity)
              ltac:(repeat constructor)) as [_ Hclose].
  split.
  - apply (Hclose 0%nat (sample_service "jobs" "work")). reflexivity.
  - apply (Hclose 1%nat failing_channel_service). reflexivity.
Defined.

(** *** Returning before the channels are closed *)

Lemma lazy_progress F log0 s :
  balanced F -> inv F log0 s -> returned s = false ->
  Forall nothing_after_send (goroutines s) ->
  exists a s',
    step F a s = Some s' /\ Forall nothing_after_send (goroutines s').
Proof.
  intros [Hone Hexp] [Hsp Hprogs Hpc _ (sent & Hsent & Hrecv & _) _] Hnr Hlazy.
  destruct (decide (spawned s < iterations F)%nat) as [Hlt|Hge].
  { exists Spawn. eexists. simpl. rewrite decide_True by done.
    split; [done|]. simpl. apply Forall_app. split; [done|].
    apply Forall_fmap, Forall_true. by intros p. }
  assert (Hall : spawned s = iterations F) by lia.
  rewrite Hall in Hprogs.
  assert (Hlen : length (goroutines s) = expect F).
  { by rewrite Hexp, <- Hprogs, length_fmap. }
  assert (Hsends : Forall (fun g => length (sends_of (prog g)) = 1%nat)
                     (goroutines s)).
  { apply (Forall_fmap prog (fun p => length (sends_of p) = 1%nat)).
    by rewrite Hprogs. }
  assert (Hle : Forall (fun g => (length (done_sends g) <= 1)%nat)
                  (goroutines s)).
  { eapply Forall_impl; [exact Hsends|]. intros g Hg. simpl in Hg.
    pose proof (done_sends_prefix g). lia. }
  pose proof (sends_bounded _ Hle) as Hbound.
  rewrite <- Hsent, <- Hrecv, Hlen in Hbound.
  destruct (decide (received s = expect F)) as [Heq|Hne].
  { exists Finish. eexists. simpl. rewrite decide_True by done. by split. }
  destruct (sends_pending _ Hle) as (i & g & Hi & Hg).
  { rewrite <- Hsent, <- Hrecv, Hlen. lia. }
  assert (Hpcg : (pc g < length (prog g))%nat).
  { destruct (decide (pc g < length (prog g))%nat) as [|Hfull]; [done|].
    pose proof (proj1 (Forall_lookup _ _) Hsends i g Hi) as Hs.
    simpl in Hs.
    unfold done_sends in Hg. rewrite take_ge in Hg by lia.
    rewrite Hg in Hs. done. }
  destruct (lookup_lt_is_Some_2 _ _ Hpcg) as [ins Hins].
  assert (Hadv : Forall nothing_after_send (<[i := advance g]> (goroutines s))).
  { apply Forall_insert; [done|]. by unfold nothing_after_send. }
  exists (Run i). simpl. rewrite Hi, Hins. destruct ins as [c|e].
  - by eexists.
  - rewrite decide_True by (repeat split; [done..|lia]). by eexists.
Qed.

Lemma lazy_completes F log0 : balanced F -> forall n s,
  inv F log0 s ->
  Forall nothing_after_send (goroutines s) ->
  (steps_total F - steps_taken s <= n)%nat ->
  exists acts s',
    exec F acts s = Some s' /\ returned s' = true
    /\ Forall nothing_after_send (goroutines s').
Proof.
  intros Hbal n. induction n as [|n IH]; intros s Hinv Hlazy Hn.
  - destruct (returned s) eqn:Hret; [by exists [], s|].
    destruct (lazy_progress F log0 s Hbal Hinv Hret Hlazy)
      as (a & s1 & Hstep & _).
    pose proof (steps_taken_step _ _ _ _ Hstep).
    pose proof (steps_taken_bounded F log0 s1 (inv_step _ _ _ _ _ Hinv Hstep)).
    lia.
  - destruct (returned s) eqn:Hret; [by exists [], s|].
    destruct (lazy_progress F log0 s Hbal Hinv Hret Hlazy)
      as (a & s1 & Hstep & Hlazy1).
    pose proof (steps_taken_step _ _ _ _ Hstep).
    destruct (IH s1) as (acts & s' & Hexec & Hs').
    + by apply (inv_step F log0 a s).
    + done.
    + lia.
    + exists (a :: acts), s'. split; [|done]. simpl. by rewrite Hstep.
Qed.

Lemma bind_task_unclosed i q g j :
  prog g = bind_task i q ->
  nothing_after_send g ->
  CallClose j ∉ done_calls g.
Proof.
  destruct g as [p k].
  unfold nothing_after_send, done_calls, bind_task. simpl.
  intros -> Hlazy Hin.
  destruct (Channel q) as [ch|err]; [case_decide|];
    split_pc k; simpl in Hlazy; rewrite ?take_nil in Hlazy;
    try discriminate Hlazy;
    repeat (apply elem_of_cons in Hin as [[=]|Hin]);
    by apply elem_of_nil in Hin.
Qed.

Lemma bind_task_acquired i q g :
  prog g = bind_task i q ->
  done_sends g = sends_of (prog g) ->
  CallChannel i ∈ done_calls g.
Proof.
  destruct g as [p k]. unfold done_sends, done_calls, bind_task. simpl.
  intros -> Hsent.
  destruct (Channel q) as [ch|err]; [case_decide|];
    split_pc k; simpl in Hsent; rewrite ?take_nil in Hsent;
    try discriminate Hsent; apply elem_of_cons; by left.
Qed.

(** X16.  [BindQueuesToExchange] does not wait for the channels to be
    closed: for every batch there is a run in which the caller returns
    when every service has had its channel requested and not one
    channel has been closed yet. *)
Theorem bind_returns_before_close queues log0 :
  exists acts s,
    exec (BindQueuesToExchange queues) acts (init log0) = Some s
    /\ returned s = true
    /\ (forall (i : nat) q, queues !! i = Some q -> CallChannel i ∈ trace s)
    /\ (forall j, CallClose j ∉ trace s).
Proof.
  destruct (lazy_completes _ log0 (bind_balanced queues)
              (steps_total (BindQueuesToExchange queues)) (init log0)
              (inv_init _ log0)) as (acts & s & Hexec & Hret & Hlazy);
    [by constructor|lia|].
  exists acts, s. split; [done|]. split; [done|].
  pose proof (inv_exec _ log0 _ _ _ (inv_init _ log0) Hexec) as Hinv.
  destruct (bind_joined _ _ _ Hinv Hret) as (Hprogs & Hone & _).
  pose proof (bind_goroutines _ _ Hprogs) as Hgs.
  destruct Hinv as [_ _ _ Htr _ _]. split.
  - intros i q Hq.
    destruct (lookup_lt_is_Some_2 (goroutines s) i) as [g Hg].
    { rewrite <- (length_fmap prog), Hprogs, length_imap.
      by eapply lookup_lt_Some. }
    destruct (Hgs i g Hg) as (q' & _ & Hprog).
    rewrite Htr. apply elem_of_concat. exists (done_calls g). split.
    + apply (bind_task_acquired i q'); [done|].
      by apply (proj1 (Forall_lookup _ _) Hone i).
    + apply list_elem_of_fmap_2, list_elem_of_lookup. eauto.
  - intros j Hin. rewrite Htr in Hin.
    apply elem_of_concat in Hin as (l & Hin & Hl).
    apply list_elem_of_fmap in Hl as (g & -> & Hg).
    apply list_elem_of_lookup in Hg as [i Hi].
    destruct (Hgs i g Hi) as (q' & _ & Hprog).
    revert Hin. apply (bind_task_unclosed i q'); [done|].
    by apply (proj1 (Forall_lookup _ _) Hlazy i).
Qed.

(** * [AutoSetup] *)

Lemma step_extends F a s s' :
  step F a s = Some s' ->
  exists cs ls, trace s' = trace s ++ cs /\ log s' = log s ++ ls.
Proof.
  destruct a as [|g|]; simpl; intros Hstep.
  - case_decide; [|done]. injection Hstep as <-. simpl.
    exists [], []. by rewrite !app_nil_r.
  - destruct (goroutines s !! g) as [gr|]; [|done].
    destruct (prog gr !! pc gr) as [[c|e]|]; [| |done].
    + injection Hstep as <-. simpl. exists [c], []. by rewrite app_nil_r.
    + case_decide; [|done]. injection Hstep as <-. simpl.
      exists [], (log_failure e). by rewrite app_nil_r.
  - case_decide; [|done]. injection Hstep as <-. simpl.
    exists [], []. by rewrite !app_nil_r.
Qed.

Lemma emitted_app {A} (l k : list A) : emitted l (l ++ k) = k.
Proof. apply drop_app_length. Qed.

Lemma auto_ok_init queues log0 : auto_ok queues log0 (auto_init log0).
Proof.
  split; [by exists []|]. split; [done|]. simpl. by rewrite !app_nil_r.
Qed.

Lemma auto_ok_step queues log0 a S S' :
  auto_ok queues log0 S -> auto_step queues a S = Some S' ->
  auto_ok queues log0 S'.
Proof.
  intros ((acts1 & Hexec1) & Hbind & Htr & Hlog) Hstep.
  destruct a as [a|a]; simpl in Hstep.
  - destruct (step _ a (creating S)) as [s'|] eqn:Hs; [|done].
    injection Hstep as <-.
    destruct (binding S) as [s2|] eqn:Hb.
    { destruct Hbind as [Hret _].
      by rewrite (create_quiescent queues log0 acts1) in Hs. }
    destruct (step_extends _ _ _ _ Hs) as (cs & ls & Hcs & Hls).
    simpl in Htr, Hlog. rewrite app_nil_r in Htr, Hlog.
    split; [|split; [|split]]; simpl.
    + exists (acts1 ++ [a]). apply (exec_app _ _ _ _ (creating S)); [done|].
      simpl. by rewrite Hs.
    + done.
    + by rewrite Hcs, emitted_app, Htr, app_nil_r.
    + by rewrite Hls, emitted_app, Hlog, app_nil_r.
  - destruct (returned (creating S)) eqn:Hret; [|done].
    destruct (step _ a (default (init []) (binding S))) as [s'|] eqn:Hs;
      [|done].
    injection Hstep as <-.
    destruct (step_extends _ _ _ _ Hs) as (cs & ls & Hcs & Hls).
    split; [|split; [|split]]; simpl.
    + by exists acts1.
    + split; [done|]. destruct (binding S) as [s2|]; simpl in Hs.
      * destruct Hbind as (_ & acts2 & Hexec2). exists (acts2 ++ [a]).
        apply (exec_app _ _ _ _ s2); [done|]. simpl. by rewrite Hs.
      * exists [a]. simpl. by rewrite Hs.
    + rewrite Hcs, emitted_app, Htr.
      destruct (binding S); simpl; by rewrite <- ?app_assoc.
    + rewrite Hls, emitted_app, Hlog.
      destruct (binding S); simpl; by rewrite <- ?app_assoc.
Qed.

Lemma auto_ok_exec queues log0 acts : forall S S',
  auto_ok queues log0 S -> auto_exec queues acts S = Some S' ->
  auto_ok queues log0 S'.
Proof.
  induction acts as [|a acts IH]; intros S S' Hok Hexec; simpl in Hexec.
  - by injection Hexec as <-.
  - destruct (auto_step queues a S) as [S1|] eqn:Hstep; [|done].
    apply (IH S1); [|done]. by apply (auto_ok_step queues log0 a S).
Qed.

(** X17.  [AutoSetup] is strictly two-phased.  At every moment of every
    run the calls made so far are creation calls followed by calls of
    the binding batch, nothing of the first batch runs once the second
    has started, and as soon as the binding batch has done anything, or
    [AutoSetup] has returned, all the creation calls, one create-queue
    and one create-exchange per service, have been made. *)
Theorem auto_setup_two_phases queues log0 acts S :
  auto_exec queues acts (auto_init log0) = Some S ->
  exists t1 t2,
    auto_trace S = t1 ++ t2
    /\ t1 ⊆+ creation_calls (length queues)
    /\ t2 ⊆+ binding_calls queues
    /\ Forall (fun c => is_creation c = true) t1
    /\ Forall (fun c => is_creation c = false) t2
    /\ (t2 <> [] \/ auto_returned S = true ->
        t1 ≡ₚ creation_calls (length queues)).
Proof.
  intros Hexec.
  destruct (auto_ok_exec _ log0 _ _ _ (auto_ok_init _ log0) Hexec)
    as ((acts1 & Hexec1) & Hbind & Htr & _).
  exists (trace (creating S)), (from_option trace [] (binding S)).
  split; [done|].
  pose proof (inv_exec _ log0 _ _ _ (inv_init _ log0) Hexec1) as Hinv1.
  assert (H1 : trace (creating S) ⊆+ creation_calls (length queues)).
  { pose proof (trace_within_programs _ log0 _ Hinv1) as Hsub.
    simpl in Hsub. by rewrite create_progs_calls in Hsub. }
  assert (H2 : from_option trace [] (binding S) ⊆+ binding_calls queues).
  { destruct (binding S) as [s2|]; simpl.
    - destruct Hbind as (_ & acts2 & Hexec2).
      apply (bind_trace_within _ []).
      by apply (inv_exec _ [] acts2 (init [])), Hexec2; apply inv_init.
    - apply submseteq_nil_l. }
  split; [done|]. split; [done|]. split; [|split].
  - apply Forall_forall. intros c Hc.
    pose proof (elem_of_submseteq _ _ _ Hc H1) as Hin.
    by apply elem_of_creation_calls in Hin as (i & _ & [-> | ->]).
  - apply Forall_forall. intros c Hc.
    pose proof (elem_of_submseteq _ _ _ Hc H2) as Hin.
    apply elem_of_binding_calls in Hin as (j & q & _ & Hin).
    by apply bind_task_calls in Hin as [_ ?].
  - intros Hstarted.
    assert (Hret : returned (creating S) = true).
    { unfold auto_returned in Hstarted.
      destruct (binding S) as [s2|]; [by destruct Hbind|].
      by destruct Hstarted. }
    by destruct (create_joined queues log0 acts1 _ Hexec1 Hret) as [? _].
Qed.

Lemma auto_setup_two_phases_witness :
  exists S,
    auto_exec [sample_service "jobs" "work"]
      [InCreate Spawn; InCreate (Run 1%nat); InCreate (Run 0%nat);
       InCreate (Run 0%nat); InCreate (Run 1%nat); InCreate Finish;
       InBind Spawn; InBind (Run 0%nat); InBind (Run 0%nat);
       InBind (Run 0%nat)] (auto_init []) = Some S
    /\ auto_trace S
       = [CallCreateExchange 0; CallCreateQueue 0]
           ++ [CallChannel 0; CallConfig 0;
               CallQueueBind 0 "jobs" "jobs" "work" false None]
    /\ exists t1 t2,
         auto_trace S = t1 ++ t2
         /\ t1 ⊆+ creation_calls 1
         /\ t2 ⊆+ binding_calls [sample_service "jobs" "work"]
         /\ Forall (fun c => is_creation c = true) t1
         /\ Forall (fun c => is_creation c = false) t2
         /\ (t2 <> [] \/ auto_returned S = true -> t1 ≡ₚ creation_calls 1).
Proof.
  eexists. split; [vm_compute; reflexivity|]. split; [reflexivity|].
  apply (auto_setup_two_phases [sample_service "jobs" "work"] []
           [InCreate Spawn; InCreate (Run 1%nat); InCreate (Run 0%nat);
            InCreate (Run 0%nat); InCreate (Run 1%nat); InCreate Finish;
            InBind Spawn; InBind (Run 0%nat); InBind (Run 0%nat);
            InBind (Run 0%nat)]).
  vm_compute; reflexivity.
Defined.

Lemma unique_loop_run log confs :
  unique_loop confs confs 0 ∅ log
  = if decide (NoDup (config.QueueName <$> confs))
    then (Return tt, log)
    else (Panic "queue names are not unique",
          log ++ report confs ++ [LogPanic "queue names are not unique"]).
Proof.
  apply (unique_loop_spec confs log confs [] ∅).
  - apply NoDup_nil_2.
  - intros name. rewrite lookup_empty. simpl. split.
    + by intros [? ?].
    + intros Hin. by apply elem_of_nil in Hin.
  - done.
Qed.

(** * Loading a configuration *)

Section LoaderProperties.
Context {viper_t queue_t consume_t publish_t endpoint_t : Type}.
Variables (zero_Queue : queue_t) (zero_Consume : consume_t)
  (zero_Publish : publish_t) (zero_Endpoint : endpoint_t).
Variable NewQueue : viper_t -> queue_t * option error.
Variable NewConsume : viper_t -> consume_t * option error.
Variable NewPublish : viper_t -> publish_t * option error.
Variable NewEndpoint : viper_t -> endpoint_t * option error.
Variable NewExchange : viper_t -> config.Exchange * option error.

Let load := New zero_Consume zero_Publish zero_Endpoint NewQueue NewConsume
              NewPublish NewEndpoint NewExchange.
Let error_of := loader_error NewQueue NewConsume NewPublish NewEndpoint
                  NewExchange.
Let loaded := field_loaded NewQueue NewConsume NewPublish NewEndpoint
                NewExchange.
Let zeroed := @field_zero queue_t consume_t publish_t endpoint_t
                zero_Queue zero_Consume zero_Publish zero_Endpoint.

Ltac loader_cases v :=
  unfold load, error_of, loaded, zeroed, New, loader_error, field_loaded,
    field_zero, all_loader_calls;
  destruct (NewQueue v) as [q [e1|]] eqn:HQ;
  [|destruct (NewConsume v) as [c [e2|]] eqn:HC;
    [|destruct (NewPublish v) as [p [e3|]] eqn:HP;
      [|destruct (NewEndpoint v) as [ep [e4|]] eqn:HE;
        [|destruct (NewExchange v) as [x e5] eqn:HX]]]];
  simpl.

Ltac not_called H :=
  repeat (apply elem_of_cons in H as [H|H]; [discriminate H|]);
  by apply elem_of_nil in H.

Ltac called :=
  repeat first [ by (apply elem_of_cons; left) | apply elem_of_cons; right ].

(** X18.  [New] calls the five constructors in a fixed order and stops
    at the first that fails: the error it returns is the error of the
    last constructor it called, every constructor called before that one
    succeeded, and [New] succeeds exactly when all five do.  The field of
    every constructor called holds what it returned, the field of every
    constructor not reached still holds its zero value. *)
Theorem New_stops_at_first_error v :
  snd (load v) `prefix_of` all_loader_calls
  /\ CallNewQueue ∈ snd (load v)
  /\ (snd (fst (load v)) = None <-> forall c, error_of v c = None)
  /\ (exists c, last (snd (load v)) = Some c
                /\ error_of v c = snd (fst (load v)))
  /\ (forall c, c ∈ snd (load v) -> last (snd (load v)) <> Some c ->
        error_of v c = None)
  /\ (forall c, c ∈ snd (load v) -> loaded v c (fst (fst (load v))))
  /\ (forall c, c ∉ snd (load v) -> zeroed c (fst (fst (load v)))).
Proof.
  loader_cases v.
  all: split; [by eexists|].
  all: split; [apply elem_of_cons; by left|].
  all: split;
    [split;
     [intros Herr cc; destruct cc; simpl;
      rewrite ?HQ, ?HC, ?HP, ?HE, ?HX; simpl; congruence
     |intros Hall;
      pose proof (Hall CallNewQueue) as H1;
      pose proof (Hall CallNewConsume) as H2;
      pose proof (Hall CallNewPublish) as H3;
      pose proof (Hall CallNewEndpoint) as H4;
      pose proof (Hall CallNewExchange) as H5;
      simpl in *; rewrite ?HQ, ?HC, ?HP, ?HE, ?HX in *; simpl in *;
      congruence]|].
  all: split;
    [eexists; split; [reflexivity|];
     simpl; by rewrite ?HQ, ?HC, ?HP, ?HE, ?HX|].
  all: split;
    [intros cc Hin Hlast; destruct cc; simpl;
     rewrite ?HQ, ?HC, ?HP, ?HE, ?HX; simpl; try done;
     first [by destruct Hlast | not_called Hin]|].
  all: split;
    [intros cc Hin; destruct cc; simpl;
     rewrite ?HQ, ?HC, ?HP, ?HE, ?HX; simpl; try done; not_called Hin
    |intros cc Hout; destruct cc; simpl; try done; destruct Hout; called].
Qed.

(** [New] never sets the queue name. *)
Lemma New_queue_name v : config_full.QueueName (fst (fst (load v))) = "".
Proof. by loader_cases v. Qed.

(** X19.  [New] never sets the queue name, so configurations that come
    straight from [New] all have the empty queue name: two or more of
    them never pass [AssertUniqueQueues], whatever was loaded. *)
Theorem loaded_configs_collide log vs :
  (2 <= length vs)%nat ->
  fst (AssertUniqueQueues log
         ((fun v => to_Config (fst (fst (load v)))) <$> vs))
  = Panic "queue names are not unique".
Proof.
  intros Hlen. unfold AssertUniqueQueues. rewrite unique_loop_run.
  rewrite decide_False; [done|].
  destruct vs as [|v1 [|v2 vs]]; simpl in Hlen; [lia..|].
  rewrite !fmap_cons. unfold to_Config at 1 2. simpl.
  rewrite !New_queue_name. intros Hnd.
  apply NoDup_cons in Hnd as [Hnotin _]. apply Hnotin.
  apply elem_of_cons. by left.
Qed.
End LoaderProperties.

Lemma loaded_configs_collide_witness :
  fst (AssertUniqueQueues []
         ((fun v => to_Config (fst (fst (sample_New v)))) <$> [5; 7]))
  = Panic "queue names are not unique".
Proof.
  apply (loaded_configs_collide 0 0 0 (sample_ctor "queue")
           (fun v => sample_ctor "consume" (v - 1))
           (fun v => sample_ctor "publish" (v - 2))
           (fun v => sample_ctor "endpoint" (v - 3))
           (fun v => (config.mkExchange "amq.topic", None)) [] [5; 7]).
  simpl. lia.
Defined.

Example New_stops_at_publish :
  sample_New 1
  = (config_full.mk "" 1 0 (-1) 0 (config.mkExchange ""),
     Some (errors_New "publish"),
     [CallNewQueue; CallNewConsume; CallNewPublish]).
Proof. reflexivity. Qed.

(** * Dialling *)

Lemma append_assoc (s1 s2 s3 : string) :
  (s1 +:+ s2) +:+ s3 = s1 +:+ s2 +:+ s3.
Proof.
  induction s1 as [|a s1 IH]; [done|].
  change (String a ((s1 +:+ s2) +:+ s3) = String a (s1 +:+ s2 +:+ s3)).
  by rewrite IH.
Qed.

(** X20.  The dial string is put together without escaping: a colon
    moved from the user name into the password gives the same string,
    so [OpenAMQPConnection] cannot tell the two endpoints apart, whatever
    the client library does with the string. *)
Theorem dial_url_unescaped {connection_t : Type}
    (amqp_Dial : string -> connection_t + error)
    proto user mid password host port vhost :
  OpenAMQPConnection amqp_Dial
    (mkEndpoint proto (user +:+ ":" +:+ mid) password host port vhost)
  = OpenAMQPConnection amqp_Dial
      (mkEndpoint proto user (mid +:+ ":" +:+ password) host port vhost).
Proof.
  unfold OpenAMQPConnection, dial_url. simpl. f_equal. f_equal. f_equal.
  by rewrite !append_assoc.
Qed.

